(** * bgrep: a shallow embedding of the context ring buffer (src/bgrep.cpp)

    The development models [Target] (the literal pattern set), the
    [RingBuffer] with its [readFrom] / [collectTo] methods, the
    [StreamReader] used by the driver loop, and the [StreamCollector]
    sink (the list of chunks handed to [collect]).

    Memory cells are [option byte]: [None] is an indeterminate byte as
    left by [new char[buffer_size]], [Some b] a byte written by a read. *)

From Stdlib Require Import ZArith String.
From Stdlib Require Import Strings.Byte.
From stdpp Require Import base list sets.

Open Scope Z_scope.

(** ** Bytes and memory *)

Abbreviation cell := (option byte).
Abbreviation slot := (list cell).

#[global] Instance byte_eq_decision : EqDecision byte := Strings.Byte.byte_eq_dec.

(** [memmem(hay, hay_len, needle, needle_len)] from libc: offset of the
    first occurrence of [needle] in [hay]; an empty needle is found at
    offset 0. Only bytes that hold a value can compare equal. *)
Fixpoint is_prefix (needle : list byte) (hay : list cell) : bool :=
  match needle, hay with
  | [], _ => true
  | b :: needle', Some c :: hay' => Strings.Byte.eqb b c && is_prefix needle' hay'
  | _ :: _, _ => false
  end.

Fixpoint memmem (hay : list cell) (needle : list byte) : option nat :=
  if is_prefix needle hay then Some 0%nat
  else match hay with
       | [] => None
       | _ :: hay' => S <$> memmem hay' needle
       end.

(** ** Target (lines 138-171) *)

Record Target := mkTarget { _targets : list (list byte) }.

Definition Target_new : Target := mkTarget [].

(** [Target::addTarget]: [_targets.push_back(target)]. *)
Definition addTarget (t : Target) (target : list byte) : Target :=
  mkTarget (_targets t ++ [target]).

(** The loop of [Target::match]: first pattern found breaks out. *)
Fixpoint match_loop (targets : list (list byte)) (hay : list cell) : bool :=
  match targets with
  | [] => false
  | target :: rest =>
      match memmem hay target with
      | Some _ => true
      | None => match_loop rest hay
      end
  end.

(** [Target::match(str, len)]: [memmem] is called on [str[0, len)]. *)
Definition Target_match (t : Target) (str : list cell) (len : Z) : bool :=
  match_loop (_targets t) (take (Z.to_nat len) str).

(** ** RingBuffer (lines 173-284) *)

Record RingBuffer := mkRingBuffer {
  _buffer : list slot;
  _buffer_num : Z;
  _buffer_size : Z;
  _next_buffer_idx : Z;
  _matched_buffer_idx : Z;
  _target : Target;
  _buffer_print_flag : list Z  (* 0: not printed *)
}.

Definition set_buffer (rb : RingBuffer) (b : list slot) : RingBuffer :=
  mkRingBuffer b (_buffer_num rb) (_buffer_size rb) (_next_buffer_idx rb)
    (_matched_buffer_idx rb) (_target rb) (_buffer_print_flag rb).
Definition set_next (rb : RingBuffer) (i : Z) : RingBuffer :=
  mkRingBuffer (_buffer rb) (_buffer_num rb) (_buffer_size rb) i
    (_matched_buffer_idx rb) (_target rb) (_buffer_print_flag rb).
Definition set_matched (rb : RingBuffer) (i : Z) : RingBuffer :=
  mkRingBuffer (_buffer rb) (_buffer_num rb) (_buffer_size rb) (_next_buffer_idx rb)
    i (_target rb) (_buffer_print_flag rb).
Definition set_flags (rb : RingBuffer) (f : list Z) : RingBuffer :=
  mkRingBuffer (_buffer rb) (_buffer_num rb) (_buffer_size rb) (_next_buffer_idx rb)
    (_matched_buffer_idx rb) (_target rb) f.

(** [_buffer[i]] *)
Definition get_slot (rb : RingBuffer) (i : Z) : slot :=
  default [] (_buffer rb !! Z.to_nat i).

(** The constructor (lines 193-209); its assertions [buffer_num > 0] and
    [buffer_size > 0] are hypotheses of the theorems below. Every slot is
    [new char[buffer_size]] (indeterminate) and every flag is 1. *)
Definition RingBuffer_new (buffer_num buffer_size : Z) (target : Target) : RingBuffer :=
  mkRingBuffer
    (replicate (Z.to_nat buffer_num) (replicate (Z.to_nat buffer_size) None))
    buffer_num buffer_size 0 (-1) target
    (replicate (Z.to_nat buffer_num) 1).

(** One iteration of a [collectTo] loop over index [i]. *)
Definition collect_slot (bufs : list slot) (size : Z)
    (acc : list Z * list slot) (i : nat) : list Z * list slot :=
  let '(flags, out) := acc in
  if bool_decide (flags !! i = Some 0) then
    (<[i := 1]> flags, out ++ [take (Z.to_nat size) (default [] (bufs !! i))])
  else acc.

(** [RingBuffer::collectTo(start, collector)]: the first loop runs
    [i = start .. _buffer_num - 1], the second [i = 0 .. start - 1]. The
    returned list is what the collector received, one chunk per call. *)
Definition collectTo (start : Z) (rb : RingBuffer) : RingBuffer * list slot :=
  let n := Z.to_nat (_buffer_num rb) in
  let s := Z.to_nat start in
  let step := collect_slot (_buffer rb) (_buffer_size rb) in
  let acc1 := fold_left step (seq s (n - s)) (_buffer_print_flag rb, []) in
  let '(flags, out) := fold_left step (seq 0 s) acc1 in
  (set_flags rb flags, out).

(** [start = _matched_buffer_idx + _buffer_num / 2; start %= _buffer_num;] *)
Definition flush_start (rb : RingBuffer) : Z :=
  Z.rem (_matched_buffer_idx rb + Z.quot (_buffer_num rb) 2) (_buffer_num rb).

(** Lines 221-226: pick the slot, advance the cursor, read into the slot
    and clear its print flag. [data] is what [reader->read] wrote; it has
    at most [_buffer_size] bytes, and [nread = length data] ([nread <= 0]
    and [nread = 0] behave alike: nothing is written). *)
Definition store (rb : RingBuffer) (data : list byte) : RingBuffer :=
  let buffer_idx := _next_buffer_idx rb in
  let i := Z.to_nat buffer_idx in
  let next := Z.rem (buffer_idx + 1) (_buffer_num rb) in
  let old := get_slot rb buffer_idx in
  let rb1 := set_next rb next in
  let rb2 := set_buffer rb1 (<[i := map Some data ++ drop (length data) old]> (_buffer rb1)) in
  set_flags rb2 (<[i := 0]> (_buffer_print_flag rb2)).

(** Lines 246-250: match detection, only while no match is tracked. *)
Definition register (rb : RingBuffer) (buffer_idx nread : Z) : RingBuffer :=
  if (_matched_buffer_idx rb <? 0)
       && Target_match (_target rb) (get_slot rb buffer_idx) nread
  then set_matched rb buffer_idx
  else rb.

(** Lines 252-261: flush readiness. *)
Definition check_flush (rb : RingBuffer) : RingBuffer * list slot :=
  if 0 <=? _matched_buffer_idx rb then
    let start := flush_start rb in
    if _next_buffer_idx rb =? start then
      let '(rb', out) := collectTo start rb in
      (set_matched rb' (-1), out)
    else (rb, [])
  else (rb, []).

(** Lines 234-244: end of stream. *)
Definition end_of_stream (rb : RingBuffer) : RingBuffer * list slot :=
  if 0 <=? _matched_buffer_idx rb then
    let '(rb', out) := collectTo (flush_start rb) rb in
    (set_matched rb' (-1), out)
  else (rb, []).

(** [RingBuffer::readFrom(reader, collector)]; the progress and match
    notices on stderr are not modelled. *)
Definition readFrom (rb : RingBuffer) (data : list byte) : bool * RingBuffer * list slot :=
  let buffer_idx := _next_buffer_idx rb in
  let nread := Z.of_nat (length data) in
  let rb1 := store rb data in
  if nread <=? 0 then
    let '(rb2, out) := end_of_stream rb1 in (false, rb2, out)
  else
    let rb2 := register rb1 buffer_idx nread in
    let '(rb3, out) := check_flush rb2 in (true, rb3, out).

(** ** Driver loops *)

(** [while (buffer.readFrom(&reader, &collector)) {}] over a reader that
    returns the given chunks in turn. *)
Fixpoint drive (rb : RingBuffer) (reads : list (list byte)) : RingBuffer * list slot :=
  match reads with
  | [] => (rb, [])
  | data :: rest =>
      let '(b, rb1, out) := readFrom rb data in
      if b then let '(rb2, out') := drive rb1 rest in (rb2, out ++ out')
      else (rb1, out)
  end.

(** The same loop over a [StreamReader] on an [istringstream]: each read
    returns the next [buffer_size] bytes (fewer at the end), then nothing.
    The result lists what the collector received in each cycle. *)
Fixpoint run_stream (fuel : nat) (rb : RingBuffer) (input : list byte)
    : RingBuffer * list (list slot) :=
  match fuel with
  | O => (rb, [])
  | S fuel' =>
      let data := take (Z.to_nat (_buffer_size rb)) input in
      let '(b, rb1, out) := readFrom rb data in
      if b then
        let '(rb2, outs) := run_stream fuel' rb1 (drop (Z.to_nat (_buffer_size rb)) input) in
        (rb2, out :: outs)
      else (rb1, [out])
  end.

(** [test()]'s setup: a [Target] with the given patterns, a [RingBuffer]
    of [num] slots of [size] bytes, the loop over the whole input; the
    bytes each cycle sent to the [StreamCollector]. *)
Definition bgrep_cycles (patterns : list string) (num size : Z) (input : string)
    : list (list cell) :=
  let target := fold_left addTarget (map list_byte_of_string patterns) Target_new in
  let bytes := list_byte_of_string input in
  map (fun out => concat out) (snd (run_stream (S (length bytes)) (RingBuffer_new num size target) bytes)).

(** [os.str()]: everything the collector wrote. *)
Definition bgrep_output (patterns : list string) (num size : Z) (input : string) : list cell :=
  concat (bgrep_cycles patterns num size input).

Definition cells (s : string) : list cell := map Some (list_byte_of_string s).

(** Inputs of the examples below. *)
Definition bytes (s : string) : list byte := list_byte_of_string s.
Definition ab_target : Target := addTarget Target_new (bytes "ab").
Definition empty_target : Target := addTarget Target_new [].

(** 4 slots of 4 bytes after the reads "0000", "1111", "2222". *)
Definition ring_ex : RingBuffer :=
  (drive (RingBuffer_new 4 4 ab_target) [bytes "0000"; bytes "1111"; bytes "2222"]).1.

(** The same ring after one more read "aaab": a match tracked in slot 3. *)
Definition ring_match : RingBuffer := (drive ring_ex [bytes "aaab"]).1.

(** ** Readers, the entry points and the self-test *)

(** An [std::istringstream] as [StreamReader] uses it: its bytes, the
    read position and the eof bit. *)
Record istream := mkIstream { is_bytes : list byte; is_pos : nat; is_eof : bool }.

Definition istringstream (s : list byte) : istream := mkIstream s 0 false.

(** [StreamReader::read(buffer, buffer_size)] (lines 41-48): [-1] once
    [eof()] holds; otherwise [_stream->read] extracts up to [buffer_size]
    bytes, sets the eof bit when it extracts fewer, and [gcount()] is
    returned. The second component is the bytes written to [buffer]. *)
Definition StreamReader_read (st : istream) (buffer_size : nat) : Z * list byte * istream :=
  if is_eof st then (-1, [], st)
  else
    let got := take buffer_size (drop (is_pos st) (is_bytes st)) in
    (Z.of_nat (length got), got,
     mkIstream (is_bytes st) (is_pos st + length got) (bool_decide (length got < buffer_size)%nat)).

(** The values [nread] of successive [StreamReader::read] calls, up to
    the first one [<= 0] (the one that ends the [readFrom] loop). *)
Fixpoint reader_reads (fuel n : nat) (st : istream) : list Z :=
  match fuel with
  | O => []
  | S fuel' =>
      let '(nread, _, st') := StreamReader_read st n in
      if nread <=? 0 then [nread] else nread :: reader_reads fuel' n st'
  end.

(** [while (buffer.readFrom(&reader, &collector)) {}] with a
    [StreamReader]: each cycle reads into the slot through the reader.
    [readFrom] is given the bytes the read wrote; a read of [-1] writes
    none and, like a read of [0], ends the loop. *)
Fixpoint stream_loop (fuel : nat) (rb : RingBuffer) (st : istream)
    : RingBuffer * list (list slot) :=
  match fuel with
  | O => (rb, [])
  | S fuel' =>
      let '(_, data, st') := StreamReader_read st (Z.to_nat (_buffer_size rb)) in
      let '(b, rb1, out) := readFrom rb data in
      if b then
        let '(rb2, outs) := stream_loop fuel' rb1 st' in (rb2, out :: outs)
      else (rb1, [out])
  end.


Definition newline : string := String (Ascii.ascii_of_nat 10) EmptyString.


(** One block of [test()]: a fresh 4 x 4 ring with the pattern "ab" over
    [input]; [os.str() == expected]. *)
Definition test_block (input expected : string) : bool :=
  bool_decide (bgrep_output ["ab"%string] 4 4 input = cells expected).

(** [test()] (lines 286-345): the return value and what it wrote to
    stdout (the fifth block prints [os.str()] and a newline before its
    check). [TEST_ASSERT] returns [-1] at the first failed check. *)
Definition test : Z * list cell :=
  if test_block "000011112222aaab3333bbbb4444cccc5555aaab666677778888"
                "11112222aaab3333cccc5555aaab6666" then
  if test_block "000011112222aaab3333bbbbaaab666677778888"
                "11112222aaab3333bbbbaaab6666" then
  if test_block "000011112222aaab3333bbbb4444cccc" "11112222aaab3333" then
  if test_block "aaab0000111122223333bbbb4444cccc" "aaab0000" then
    let out := bgrep_output ["ab"%string] 4 4 "0000111122223333bbbb4444ccccaaab" in
    (if bool_decide (out = cells "aaab0000") then 0 else -1, out ++ cells newline)
  else (-1, [])
  else (-1, [])
  else (-1, [])
  else (-1, []).

(** [FileReader] (lines 55-100): the descriptor and the [uint64_t]
    position. *)
Record FileReader := mkFileReader { _fd : Z; _pos : Z }.

Definition FileReader_new : FileReader := mkFileReader (-1) 0.

(** [FileReader::read]: [::read] returned [nread]; [_pos += nread] on a
    [uint64_t], so a negative [nread] wraps modulo [2^64]. *)
Definition FileReader_read (fr : FileReader) (nread : Z) : Z * FileReader :=
  (nread, mkFileReader (_fd fr) ((_pos fr + nread) mod 2 ^ 64)).

Definition FileReader_tell (fr : FileReader) : Z := _pos fr.

(** [tell()] after a sequence of reads returning the given values. *)
Definition FileReader_reads (fr : FileReader) (nreads : list Z) : FileReader :=
  fold_left (fun fr n => (FileReader_read fr n).2) nreads fr.

(** ** Spec-side views *)

(** The flush order of the spec: [flushStart, ..., N-1, 0, ..., flushStart-1]
    written as one wrap-around enumeration. *)
Definition wrap_order (start n : nat) : list nat :=
  map (fun j => ((start + j) mod n)%nat) (seq 0 n).

(** The spec's flush: every still-pending slot of the wrap-around order,
    each sent with its full content. *)
Definition spec_window (rb : RingBuffer) (start : Z) : list slot :=
  map (fun i => default [] (_buffer rb !! i))
    (filter (fun i => _buffer_print_flag rb !! i = Some 0)
       (wrap_order (Z.to_nat start) (Z.to_nat (_buffer_num rb)))).

(** The shape of the storage: slot count, slot size, each slot's length
    and the number of flags. *)
Definition shape (rb : RingBuffer) : Z * Z * list nat * nat :=
  (_buffer_num rb, _buffer_size rb, map length (_buffer rb),
   length (_buffer_print_flag rb)).

(** Well-formed states: what the constructor establishes and every
    [readFrom] keeps. *)
Record wf (rb : RingBuffer) : Prop := {
  wf_num : 0 < _buffer_num rb;
  wf_size : 0 < _buffer_size rb;
  wf_len : length (_buffer rb) = Z.to_nat (_buffer_num rb);
  wf_slots : Forall (fun s => length s = Z.to_nat (_buffer_size rb)) (_buffer rb);
  wf_flags : length (_buffer_print_flag rb) = Z.to_nat (_buffer_num rb);
  wf_next : 0 <= _next_buffer_idx rb < _buffer_num rb;
  wf_matched : _matched_buffer_idx rb = -1 \/ 0 <= _matched_buffer_idx rb < _buffer_num rb
}.

(** A read respects the reader contract: at most [_buffer_size] bytes. *)
Definition read_ok (rb : RingBuffer) (data : list byte) : Prop :=
  (length data <= Z.to_nat (_buffer_size rb))%nat.

(** The number of slots whose print flag is 0 (waiting to be sent). *)
Definition pending (rb : RingBuffer) : nat :=
  length (filter (fun f => f = 0) (_buffer_print_flag rb)).

(** ** Lemmas on [collectTo] *)

Module Collect.

Definition clear_flag (flags : list Z) (i : nat) : list Z :=
  if bool_decide (flags !! i = Some 0) then <[i := 1]> flags else flags.

Lemma filter_ext_elem (P Q : nat -> Prop) `{!forall x, Decision (P x)}
    `{!forall x, Decision (Q x)} (l : list nat) :
  (forall x, x ∈ l -> P x <-> Q x) -> filter P l = filter Q l.
Proof.
  induction l as [|a l IH]; intros Hiff; [done|].
  rewrite !filter_cons.
  rewrite IH by (intros x Hx; apply Hiff; set_solver).
  destruct (decide (P a)) as [HP|HP], (decide (Q a)) as [HQ|HQ]; try done.
  - exfalso. apply HQ, Hiff; [set_solver|done].
  - exfalso. apply HP, Hiff; [set_solver|done].
Qed.

Lemma fold_collect bufs size (l : list nat) flags out :
  NoDup l ->
  fold_left (collect_slot bufs size) l (flags, out) =
  (fold_left clear_flag l flags,
   out ++ map (fun i => take (Z.to_nat size) (default [] (bufs !! i)))
             (filter (fun i => flags !! i = Some 0) l)).
Proof.
  revert flags out. induction l as [|i l IH]; intros flags out Hnd.
  - simpl. by rewrite app_nil_r.
  - apply NoDup_cons in Hnd as [Hi Hnd]. simpl. unfold clear_flag at 2.
    rewrite filter_cons.
    destruct (bool_decide (flags !! i = Some 0)) eqn:E.
    + apply bool_decide_eq_true in E.
      rewrite IH by done. rewrite decide_True by done.
      assert (Hf : filter (fun x => <[i:=1]> flags !! x = Some 0) l
                   = filter (fun x => flags !! x = Some 0) l).
      { apply filter_ext_elem. intros x Hx.
        rewrite list_lookup_insert_ne; [done|]. intros ->. done. }
      rewrite Hf, <-app_assoc. done.
    + apply bool_decide_eq_false in E.
      rewrite IH by done. rewrite decide_False by done. done.
Qed.

Lemma fold_clear_lookup (l : list nat) flags j :
  fold_left clear_flag l flags !! j =
  if bool_decide (j ∈ l /\ flags !! j = Some 0) then Some 1 else flags !! j.
Proof.
  revert flags. induction l as [|i l IH]; intros flags; cbn [fold_left].
  - rewrite bool_decide_eq_false_2; [done|]. intros [Hj _]. set_solver.
  - rewrite IH. unfold clear_flag.
    destruct (bool_decide (flags !! i = Some 0)) eqn:E.
    + apply bool_decide_eq_true in E.
      pose proof (lookup_lt_Some _ _ _ E) as Hlt.
      rewrite list_lookup_insert.
      repeat (case_decide || case_bool_decide); subst;
        first [done | set_solver | naive_solver].
    + apply bool_decide_eq_false in E.
      repeat case_bool_decide; first [done | set_solver | naive_solver].
Qed.

Lemma map_seq_shift (f : nat -> nat) k m c :
  (forall j, k <= j < k + m -> f j = j - k + c)%nat ->
  map f (seq k m) = seq c m.
Proof.
  revert k c. induction m as [|m IH]; intros k c Hf; simpl; [done|].
  rewrite (Hf k) by lia. replace (k - k + c)%nat with c by lia. f_equal.
  apply IH. intros j Hj. rewrite Hf by lia. lia.
Qed.

(** The two loops of [collectTo] visit the wrap-around order. *)
Lemma collect_order s n :
  (s < n)%nat -> seq s (n - s) ++ seq 0 s = wrap_order s n.
Proof.
  intros Hs. unfold wrap_order.
  pose proof (seq_app (n - s) s 0) as Hsa.
  replace (n - s + s)%nat with n in Hsa by lia. simpl in Hsa. rewrite Hsa.
  rewrite map_app. f_equal.
  - symmetry. apply map_seq_shift. intros j Hj. rewrite Nat.mod_small by lia. lia.
  - symmetry. apply map_seq_shift. intros j Hj.
    replace (s + j)%nat with ((s + j - n) + 1 * n)%nat by lia.
    rewrite Nat.Div0.mod_add. rewrite Nat.mod_small by lia. lia.
Qed.

Lemma wrap_order_NoDup s n : (s < n)%nat -> NoDup (wrap_order s n).
Proof.
  intros Hs. rewrite <-collect_order by done.
  apply NoDup_app. split; [apply NoDup_seq|split; [|apply NoDup_seq]].
  intros x Hx1 Hx2. apply elem_of_seq in Hx1, Hx2. lia.
Qed.

Lemma wrap_order_elem s n i : (0 < n)%nat -> i ∈ wrap_order s n <-> (i < n)%nat.
Proof.
  intros Hn. unfold wrap_order. rewrite list_elem_of_fmap. split.
  - intros [j [-> _]]. apply Nat.mod_upper_bound. lia.
  - intros Hi. exists ((i + n - s mod n) mod n)%nat. split.
    + rewrite Nat.Div0.add_mod_idemp_r.
      rewrite (Nat.div_mod_eq s n) at 1.
      replace (n * (s / n) + s mod n + (i + n - s mod n))%nat
        with (i + (s / n + 1) * n)%nat.
      * rewrite Nat.Div0.mod_add. rewrite Nat.mod_small by lia. done.
      * pose proof (Nat.mod_upper_bound s n). nia.
    + apply elem_of_seq. pose proof (Nat.mod_upper_bound (i + n - s mod n) n). lia.
Qed.

Lemma collectTo_eq start rb :
  0 <= start < _buffer_num rb ->
  let order := wrap_order (Z.to_nat start) (Z.to_nat (_buffer_num rb)) in
  collectTo start rb =
  (set_flags rb (fold_left clear_flag order (_buffer_print_flag rb)),
   map (fun i => take (Z.to_nat (_buffer_size rb)) (default [] (_buffer rb !! i)))
     (filter (fun i => _buffer_print_flag rb !! i = Some 0) order)).
Proof.
  intros Hs order. unfold collectTo. cbv zeta.
  rewrite <-fold_left_app, collect_order by lia.
  rewrite fold_collect by (apply wrap_order_NoDup; lia). done.
Qed.

Lemma fold_clear_length (l : list nat) flags :
  length (fold_left clear_flag l flags) = length flags.
Proof.
  revert flags. induction l as [|i l IH]; intros flags; simpl; [done|].
  rewrite IH. unfold clear_flag. case_bool_decide; [apply length_insert|done].
Qed.

End Collect.

(** ** Lemmas on the steps of [readFrom] *)

Module Steps.
Import Collect.

Lemma flush_start_eq rb :
  0 < _buffer_num rb -> 0 <= _matched_buffer_idx rb ->
  flush_start rb = (_matched_buffer_idx rb + _buffer_num rb / 2) mod _buffer_num rb.
Proof.
  intros HN Hm. unfold flush_start.
  rewrite Z.quot_div_nonneg by lia. apply Z.rem_mod_nonneg.
  - pose proof (Z.div_pos (_buffer_num rb) 2). lia.
  - lia.
Qed.

Lemma flush_start_range rb :
  0 < _buffer_num rb -> 0 <= _matched_buffer_idx rb ->
  0 <= flush_start rb < _buffer_num rb.
Proof.
  intros HN Hm. rewrite flush_start_eq by done. apply Z.mod_pos_bound. lia.
Qed.

Lemma store_next rb data :
  0 <= _next_buffer_idx rb -> 0 < _buffer_num rb ->
  _next_buffer_idx (store rb data) = (_next_buffer_idx rb + 1) mod _buffer_num rb.
Proof. intros. unfold store. simpl. apply Z.rem_mod_nonneg; lia. Qed.

Lemma store_buffer_lookup rb data j :
  wf rb ->
  _buffer (store rb data) !! j =
  if decide (j = Z.to_nat (_next_buffer_idx rb)) then
    Some (map Some data ++ drop (length data) (get_slot rb (_next_buffer_idx rb)))
  else _buffer rb !! j.
Proof.
  intros Hwf. unfold store. simpl. rewrite list_lookup_insert.
  pose proof (wf_next _ Hwf). pose proof (wf_len _ Hwf).
  repeat case_decide; try done; exfalso;
    first [ destruct_and!; congruence
          | match goal with Hn : ¬ (_ ∧ _) |- _ => apply Hn; split; [congruence|lia] end ].
Qed.

Lemma store_flags_lookup rb data j :
  wf rb ->
  _buffer_print_flag (store rb data) !! j =
  if decide (j = Z.to_nat (_next_buffer_idx rb)) then Some 0
  else _buffer_print_flag rb !! j.
Proof.
  intros Hwf. unfold store. simpl. rewrite list_lookup_insert.
  pose proof (wf_next _ Hwf). pose proof (wf_flags _ Hwf).
  repeat case_decide; try done; exfalso;
    first [ destruct_and!; congruence
          | match goal with Hn : ¬ (_ ∧ _) |- _ => apply Hn; split; [congruence|lia] end ].
Qed.

Lemma store_wf rb data : wf rb -> read_ok rb data -> wf (store rb data).
Proof.
  intros Hwf Hok. pose proof (wf_next _ Hwf) as Hnx. pose proof (wf_num _ Hwf).
  constructor; simpl.
  - apply (wf_num _ Hwf).
  - apply (wf_size _ Hwf).
  - rewrite length_insert. apply (wf_len _ Hwf).
  - apply Forall_insert; [apply (wf_slots _ Hwf)|].
    unfold get_slot. destruct (_buffer rb !! Z.to_nat (_next_buffer_idx rb)) as [sl|] eqn:E.
    + simpl. pose proof (proj1 (Forall_lookup _ _) (wf_slots _ Hwf) _ _ E) as Hl.
      simpl in Hl. rewrite length_app, length_map, length_drop, Hl.
      unfold read_ok in Hok. lia.
    + exfalso. apply lookup_ge_None in E. pose proof (wf_len _ Hwf). lia.
  - rewrite length_insert. apply (wf_flags _ Hwf).
  - rewrite Z.rem_mod_nonneg by lia. apply Z.mod_pos_bound. lia.
  - apply (wf_matched _ Hwf).
Qed.

Lemma register_wf rb idx nread :
  wf rb -> 0 <= idx < _buffer_num rb -> wf (register rb idx nread).
Proof.
  intros Hwf Hi. unfold register. destruct (_ && _); [|done].
  destruct Hwf; constructor; simpl; auto.
Qed.

Lemma collectTo_wf start rb :
  wf rb -> 0 <= start < _buffer_num rb -> wf (collectTo start rb).1.
Proof.
  intros Hwf Hs. rewrite collectTo_eq by done.
  destruct Hwf; constructor; simpl; auto.
  rewrite fold_clear_length. done.
Qed.

Lemma set_matched_wf rb : wf rb -> wf (set_matched rb (-1)).
Proof. intros []. constructor; simpl; auto. Qed.

Lemma readFrom_wf rb data :
  wf rb -> read_ok rb data -> wf (readFrom rb data).1.2.
Proof.
  intros Hwf Hok. pose proof (store_wf _ _ Hwf Hok) as Hwf1.
  unfold readFrom. cbv zeta.
  destruct (Z.of_nat (length data) <=? 0).
  - unfold end_of_stream. destruct (0 <=? _) eqn:Em; [|done].
    apply Z.leb_le in Em.
    pose proof (collectTo_wf (flush_start (store rb data)) _ Hwf1
                  (flush_start_range _ (wf_num _ Hwf1) Em)) as Hc.
    destruct (collectTo _ _) as [rb2 out]. simpl in *. by apply set_matched_wf.
  - pose proof (register_wf _ (_next_buffer_idx rb) (Z.of_nat (length data)) Hwf1
                  (wf_next _ Hwf)) as Hwf2.
    unfold check_flush. destruct (0 <=? _) eqn:Em; [|done].
    apply Z.leb_le in Em. destruct (_ =? _); [|done].
    pose proof (collectTo_wf _ _ Hwf2 (flush_start_range _ (wf_num _ Hwf2) Em)) as Hc.
    destruct (collectTo _ _) as [rb2 out]. simpl in *. by apply set_matched_wf.
Qed.

Lemma collectTo_fields start rb :
  _buffer ((collectTo start rb).1) = _buffer rb /\
  _buffer_num ((collectTo start rb).1) = _buffer_num rb /\
  _buffer_size ((collectTo start rb).1) = _buffer_size rb /\
  _next_buffer_idx ((collectTo start rb).1) = _next_buffer_idx rb /\
  _matched_buffer_idx ((collectTo start rb).1) = _matched_buffer_idx rb /\
  _target ((collectTo start rb).1) = _target rb.
Proof. unfold collectTo. cbv zeta. destruct (fold_left _ _ _). done. Qed.

Lemma readFrom_dims rb data :
  _buffer_num (readFrom rb data).1.2 = _buffer_num rb /\
  _buffer_size (readFrom rb data).1.2 = _buffer_size rb /\
  _target (readFrom rb data).1.2 = _target rb.
Proof.
  unfold readFrom. cbv zeta. destruct (_ <=? 0).
  - unfold end_of_stream. destruct (0 <=? _); [|done].
    pose proof (collectTo_fields (flush_start (store rb data)) (store rb data)) as Hf.
    destruct (collectTo _ _) as [rb2 out]. simpl in *. naive_solver.
  - unfold check_flush. set (rb2 := register _ _ _).
    assert (_buffer_num rb2 = _buffer_num rb /\ _buffer_size rb2 = _buffer_size rb
            /\ _target rb2 = _target rb) as Hr.
    { subst rb2. unfold register. destruct (_ && _); done. }
    destruct (0 <=? _); [|done]. destruct (_ =? _); [|done].
    pose proof (collectTo_fields (flush_start rb2) rb2) as Hf.
    destruct (collectTo _ _) as [rb3 out]. simpl in *.
    destruct Hf as (_&?&?&_&_&?). destruct Hr as (?&?&?). repeat split; congruence.
Qed.

Lemma drive_wf rb reads :
  wf rb -> Forall (fun d => (length d <= Z.to_nat (_buffer_size rb))%nat) reads ->
  wf (drive rb reads).1 /\
  _buffer_num (drive rb reads).1 = _buffer_num rb /\
  _buffer_size (drive rb reads).1 = _buffer_size rb.
Proof.
  revert rb. induction reads as [|d reads IH]; intros rb Hwf Hr; simpl; [done|].
  apply Forall_cons in Hr as [Hd Hr].
  pose proof (readFrom_wf rb d Hwf Hd) as Hwf1.
  pose proof (readFrom_dims rb d) as (Hn & Hs & _).
  destruct (readFrom rb d) as [[b rb1] out]. simpl in *.
  destruct b.
  - rewrite <-Hs in Hr. specialize (IH rb1 Hwf1 Hr).
    destruct (drive rb1 reads) as [rb2 out']. simpl in *.
    destruct IH as (? & ? & ?). split; [done|split; congruence].
  - done.
Qed.

Lemma map_length_uniform (l : list slot) k :
  Forall (fun s => length s = k) l -> map length l = replicate (length l) k.
Proof. induction 1; simpl; [done|]. by f_equal. Qed.

Lemma shape_wf rb :
  wf rb ->
  shape rb = (_buffer_num rb, _buffer_size rb,
              replicate (Z.to_nat (_buffer_num rb)) (Z.to_nat (_buffer_size rb)),
              Z.to_nat (_buffer_num rb)).
Proof.
  intros Hwf. unfold shape. rewrite (map_length_uniform _ _ (wf_slots _ Hwf)).
  rewrite (wf_len _ Hwf), (wf_flags _ Hwf). done.
Qed.

Lemma new_wf num size target :
  0 < num -> 0 < size -> wf (RingBuffer_new num size target).
Proof.
  intros Hn Hs. constructor; simpl; try lia.
  - apply length_replicate.
  - apply Forall_replicate. apply length_replicate.
  - apply length_replicate.
Qed.

(** What the collector receives from [collectTo] is the spec's window. *)
Lemma collectTo_window start rb :
  wf rb -> 0 <= start < _buffer_num rb ->
  (collectTo start rb).2 = spec_window rb start.
Proof.
  intros Hwf Hs. rewrite collectTo_eq by done. simpl. unfold spec_window.
  apply map_ext_in. intros i Hi. apply list_elem_of_In in Hi.
  apply list_elem_of_filter in Hi as [Hp Hi].
  apply wrap_order_elem in Hi; [|pose proof (wf_num _ Hwf); lia].
  rewrite <-(wf_len _ Hwf) in Hi.
  destruct (lookup_lt_is_Some_2 _ _ Hi) as [sl Hsl]. rewrite Hsl. simpl.
  apply take_ge. rewrite (proj1 (Forall_lookup _ _) (wf_slots _ Hwf) _ _ Hsl). done.
Qed.

(** After [collectTo] no slot is left pending. *)
Lemma collectTo_cleared start rb :
  wf rb -> 0 <= start < _buffer_num rb ->
  forall i, _buffer_print_flag (collectTo start rb).1 !! i <> Some 0.
Proof.
  intros Hwf Hs i. rewrite collectTo_eq by done. simpl.
  rewrite fold_clear_lookup. case_bool_decide as Hc; [done|].
  intros Hi. apply Hc. split; [|done].
  apply wrap_order_elem; [pose proof (wf_num _ Hwf); lia|].
  rewrite <-(wf_flags _ Hwf). eapply lookup_lt_Some. done.
Qed.

(** The window has only slots of [_buffer_size] bytes. *)
Lemma spec_window_sizes rb start :
  wf rb -> Forall (fun c => length c = Z.to_nat (_buffer_size rb)) (spec_window rb start).
Proof.
  intros Hwf. unfold spec_window. apply Forall_forall. intros c Hc.
  apply list_elem_of_In, in_map_iff in Hc as [i [<- Hi]]. apply list_elem_of_In in Hi.
  apply list_elem_of_filter in Hi as [Hp _].
  destruct (_buffer rb !! i) as [sl|] eqn:Hsl.
  - simpl. apply (proj1 (Forall_lookup _ _) (wf_slots _ Hwf) _ _ Hsl).
  - exfalso. apply lookup_ge_None in Hsl. apply lookup_lt_Some in Hp.
    pose proof (wf_len _ Hwf). pose proof (wf_flags _ Hwf). lia.
Qed.

Lemma readFrom_regular rb data :
  (0 < length data)%nat ->
  readFrom rb data =
  let rb2 := register (store rb data) (_next_buffer_idx rb) (Z.of_nat (length data)) in
  ((true, (check_flush rb2).1), (check_flush rb2).2).
Proof.
  intros Hl. unfold readFrom. cbv zeta.
  replace (Z.of_nat (length data) <=? 0) with false by (symmetry; apply Z.leb_gt; lia).
  destruct (check_flush _). done.
Qed.

Lemma readFrom_eos rb data :
  length data = 0%nat ->
  readFrom rb data = ((false, (end_of_stream (store rb data)).1), (end_of_stream (store rb data)).2).
Proof.
  intros Hl. unfold readFrom. cbv zeta. rewrite Hl. simpl.
  destruct (end_of_stream _). done.
Qed.

Lemma check_flush_fire rb :
  0 <= _matched_buffer_idx rb -> _next_buffer_idx rb = flush_start rb ->
  check_flush rb = (set_matched (collectTo (flush_start rb) rb).1 (-1),
                    (collectTo (flush_start rb) rb).2).
Proof.
  intros Hm Hn. unfold check_flush.
  rewrite (proj2 (Z.leb_le _ _) Hm), (proj2 (Z.eqb_eq _ _) Hn).
  destruct (collectTo _ _). done.
Qed.

Lemma check_flush_wait rb :
  _next_buffer_idx rb <> flush_start rb -> check_flush rb = (rb, []).
Proof.
  intros Hn. unfold check_flush. destruct (0 <=? _); [|done].
  rewrite (proj2 (Z.eqb_neq _ _) Hn). done.
Qed.

Lemma check_flush_idle rb :
  _matched_buffer_idx rb < 0 -> check_flush rb = (rb, []).
Proof.
  intros Hm. unfold check_flush. rewrite (proj2 (Z.leb_gt _ _)) by lia. done.
Qed.

Lemma end_of_stream_fire rb :
  0 <= _matched_buffer_idx rb ->
  end_of_stream rb = (set_matched (collectTo (flush_start rb) rb).1 (-1),
                      (collectTo (flush_start rb) rb).2).
Proof.
  intros Hm. unfold end_of_stream. rewrite (proj2 (Z.leb_le _ _) Hm).
  destruct (collectTo _ _). done.
Qed.

Lemma end_of_stream_idle rb :
  _matched_buffer_idx rb < 0 -> end_of_stream rb = (rb, []).
Proof.
  intros Hm. unfold end_of_stream. rewrite (proj2 (Z.leb_gt _ _)) by lia. done.
Qed.

Lemma store_fields rb data :
  _buffer_num (store rb data) = _buffer_num rb /\
  _buffer_size (store rb data) = _buffer_size rb /\
  _matched_buffer_idx (store rb data) = _matched_buffer_idx rb /\
  _target (store rb data) = _target rb.
Proof. done. Qed.

Lemma register_tracking rb idx nread :
  0 <= _matched_buffer_idx rb -> register rb idx nread = rb.
Proof.
  intros Hm. unfold register. rewrite (proj2 (Z.ltb_ge _ _) Hm). done.
Qed.

Lemma register_fields rb idx nread :
  _buffer (register rb idx nread) = _buffer rb /\
  _buffer_num (register rb idx nread) = _buffer_num rb /\
  _buffer_size (register rb idx nread) = _buffer_size rb /\
  _next_buffer_idx (register rb idx nread) = _next_buffer_idx rb /\
  _buffer_print_flag (register rb idx nread) = _buffer_print_flag rb /\
  _target (register rb idx nread) = _target rb.
Proof. unfold register. destruct (_ && _); done. Qed.

End Steps.

(** ** Lemmas on [Target::match] *)

Module Matching.

(** Spec side: [pat] occurs as a contiguous run of bytes in [hay]. *)
Definition occurs (pat : list byte) (hay : list byte) : Prop :=
  exists pre post, hay = pre ++ pat ++ post.

Lemma map_Some_inj (a b : list byte) : map Some a = map Some b -> a = b.
Proof.
  revert b. induction a as [|x a IH]; intros [|y b] H; simpl in H; try done.
  injection H as -> Hab. f_equal. by apply IH.
Qed.

Lemma is_prefix_spec needle hay :
  is_prefix needle hay = true <-> exists post, hay = map Some needle ++ post.
Proof.
  revert hay. induction needle as [|b needle IH]; intros hay; simpl.
  - split; [intros _; by exists hay|done].
  - destruct hay as [|[c|] hay]; simpl.
    + split; [done|]. intros [post Hp]. done.
    + rewrite andb_true_iff, IH. split.
      * intros [Hbc [post ->]]. apply byte_dec_bl in Hbc as ->. by exists post.
      * intros [post Hp]. injection Hp as -> Hp. split; [by apply byte_dec_lb|].
        by exists post.
    + split; [done|]. intros [post Hp]. done.
Qed.

Lemma memmem_spec hay needle :
  is_Some (memmem hay needle) <-> exists pre post, hay = pre ++ map Some needle ++ post.
Proof.
  induction hay as [|c hay IH]; simpl.
  - destruct (is_prefix needle []) eqn:E.
    + split; [|done]. intros _. exists [], []. apply is_prefix_spec in E as [post Hp].
      destruct needle; [done|]. done.
    + split; [intros []; done|]. intros [pre [post Hp]].
      destruct pre; [|done]. destruct needle; [done|]. done.
  - destruct (is_prefix needle (c :: hay)) eqn:E.
    + split; [|done]. intros _. apply is_prefix_spec in E as [post Hp].
      exists [], post. done.
    + rewrite fmap_is_Some, IH. split.
      * intros [pre [post ->]]. by exists (c :: pre), post.
      * intros [[|x pre] [post Hp]].
        -- exfalso. simpl in Hp. assert (is_prefix needle (c :: hay) = true) as E'
             by (apply is_prefix_spec; by exists post).
           congruence.
        -- injection Hp as -> Hp. by exists pre, post.
Qed.

Lemma occurs_cells pat (buf : list byte) :
  (exists pre post, map Some buf = pre ++ map Some pat ++ post) <-> occurs pat buf.
Proof.
  split.
  - intros [pre [post Hp]].
    apply map_eq_app in Hp as (l1 & l2 & -> & _ & Hl2).
    apply map_eq_app in Hl2 as (l3 & l4 & -> & Hl3 & _).
    apply map_Some_inj in Hl3 as ->. by exists l1, l4.
  - intros [pre [post ->]]. exists (map Some pre), (map Some post).
    by rewrite !map_app.
Qed.

Lemma match_loop_spec targets (buf : list byte) :
  match_loop targets (map Some buf) = true <->
  exists target, In target targets /\ occurs target buf.
Proof.
  induction targets as [|t ts IH]; simpl.
  - split; [done|]. intros [? [[] _]].
  - destruct (memmem (map Some buf) t) eqn:E.
    + split; [|done]. intros _. exists t. split; [by left|].
      apply occurs_cells, memmem_spec. by rewrite E.
    + rewrite IH. split.
      * intros [t' [Hin Hocc]]. exists t'. by split; [right|].
      * intros [t' [[<-|Hin] Hocc]].
        -- apply occurs_cells, memmem_spec in Hocc. rewrite E in Hocc. by destruct Hocc.
        -- by exists t'.
Qed.

Lemma match_loop_empty_pattern targets hay :
  In [] targets -> match_loop targets hay = true.
Proof.
  induction targets as [|t ts IH]; simpl; [done|].
  intros [->|Hin].
  - destruct hay; done.
  - destruct (memmem hay t); [done|]. by apply IH.
Qed.

End Matching.

(** ** Lemmas on one match window *)

Module Window.
Import Collect Steps.

Lemma lookup_map_list {A B} (f : A -> B) (l : list A) i :
  map f l !! i = f <$> l !! i.
Proof. revert i. induction l as [|x l IH]; intros [|i]; simpl; auto. Qed.

Lemma filter_all (P : nat -> Prop) `{!forall x, Decision (P x)} (l : list nat) :
  (forall x, x ∈ l -> P x) -> filter P l = l.
Proof.
  induction l as [|a l IH]; intros Hall; [done|].
  rewrite filter_cons, decide_True by (apply Hall; set_solver).
  f_equal. apply IH. intros x Hx. apply Hall. set_solver.
Qed.

Lemma wrap_order_lookup s n p :
  (p < n)%nat -> wrap_order s n !! p = Some ((s + p) mod n)%nat.
Proof.
  intros Hp. unfold wrap_order. rewrite lookup_map_list.
  assert (seq 0 n !! p = Some p) as -> by (apply lookup_seq; lia). done.
Qed.

Lemma length_wrap_order s n : length (wrap_order s n) = n.
Proof. unfold wrap_order. rewrite length_map, length_seq. done. Qed.

Lemma length_concat_uniform (l : list slot) k :
  Forall (fun c => length c = k) l -> length (concat l) = (length l * k)%nat.
Proof. induction 1 as [|c l Hc _ IH]; simpl; [done|]. rewrite length_app, IH, Hc. lia. Qed.

(** Slot offsets from the matched slot [m], modulo [N]. *)
Lemma off_inj m N a b :
  0 < N -> 0 <= a < N -> 0 <= b < N -> (m + a) mod N = (m + b) mod N -> a = b.
Proof.
  intros HN Ha Hb Heq.
  pose proof (Z.div_mod (m + a) N ltac:(lia)) as Da.
  pose proof (Z.div_mod (m + b) N ltac:(lia)) as Db.
  rewrite Heq in Da.
  assert (Hq : N * ((m + a) / N - (m + b) / N) = a - b) by lia.
  destruct (Z.lt_total ((m + a) / N) ((m + b) / N)) as [Hlt|[Heq'|Hgt]].
  - nia.
  - rewrite Heq', Z.sub_diag in Hq. lia.
  - nia.
Qed.

Lemma off_surj m N i :
  0 < N -> 0 <= i < N -> (m + (i - m) mod N) mod N = i.
Proof.
  intros HN Hi. rewrite Z.add_mod_idemp_r by lia.
  replace (m + (i - m)) with i by lia. apply Z.mod_small. done.
Qed.

Lemma off_zero m N : 0 <= m < N -> (m + 0) mod N = m.
Proof. intros. rewrite Z.add_0_r. apply Z.mod_small. done. Qed.

Lemma half_bounds N : 0 < N -> 0 <= N / 2 < N /\ 2 * (N / 2) <= N <= 2 * (N / 2) + 1.
Proof.
  intros HN. pose proof (Z.div_mod N 2 ltac:(lia)).
  pose proof (Z.mod_pos_bound N 2 ltac:(lia)). lia.
Qed.

(** The state of the ring [j] cycles after the cycle that registered a
    match in slot [m = _next_buffer_idx rb0], once the slot of that cycle
    has been written (before the flush check): the match is tracked, the
    matched slot still holds [c0], the slots written since the match and
    the slots beyond offset [K] are pending. *)
Record tracking (rb0 : RingBuffer) (c0 : slot) (K j : Z) (st : RingBuffer) : Prop := {
  tr_wf : wf st;
  tr_num : _buffer_num st = _buffer_num rb0;
  tr_size : _buffer_size st = _buffer_size rb0;
  tr_matched : _matched_buffer_idx st = _next_buffer_idx rb0;
  tr_next : _next_buffer_idx st = (_next_buffer_idx rb0 + (j + 1)) mod _buffer_num rb0;
  tr_slot : get_slot st (_next_buffer_idx rb0) = c0;
  tr_flags : forall d, 0 <= d < _buffer_num rb0 -> d <= j \/ K < d ->
    _buffer_print_flag st !! Z.to_nat ((_next_buffer_idx rb0 + d) mod _buffer_num rb0) = Some 0
}.

Section Tracking.
Variables (rb0 : RingBuffer) (c0 : slot) (K : Z).
Hypothesis Hwf0 : wf rb0.
Hypothesis HK : K = Z.max 0 (_buffer_num rb0 / 2 - 1).

Lemma tracking_store j st data :
  tracking rb0 c0 K j st -> 0 <= j -> j + 1 < _buffer_num rb0 ->
  read_ok rb0 data ->
  tracking rb0 c0 K (j + 1) (store st data).
Proof.
  intros Htr Hj Hj1 Hok.
  pose proof (wf_num _ Hwf0) as HN. pose proof (wf_next _ Hwf0) as Hm.
  pose proof (tr_wf _ _ _ _ _ Htr) as Hwf.
  pose proof (tr_num _ _ _ _ _ Htr) as Hnum.
  pose proof (tr_next _ _ _ _ _ Htr) as Hnext.
  set (m := _next_buffer_idx rb0) in *. set (N := _buffer_num rb0) in *.
  assert (Hnx : 0 <= _next_buffer_idx st < N) by (rewrite Hnext; apply Z.mod_pos_bound; lia).
  constructor.
  - apply store_wf; [done|]. unfold read_ok in *. rewrite (tr_size _ _ _ _ _ Htr). done.
  - apply Hnum.
  - apply (tr_size _ _ _ _ _ Htr).
  - apply (tr_matched _ _ _ _ _ Htr).
  - rewrite store_next by lia. rewrite Hnum, Hnext, Z.add_mod_idemp_l by lia.
    f_equal. lia.
  - unfold get_slot. rewrite store_buffer_lookup by done.
    rewrite decide_False; [apply (tr_slot _ _ _ _ _ Htr)|].
    intros Heq. apply Z2Nat.inj in Heq; [|lia|lia].
    rewrite Hnext in Heq.
    assert (0 = j + 1) by (apply (off_inj m N); [lia|lia|lia|rewrite off_zero by lia; exact Heq]).
    lia.
  - intros d Hd Hdj. rewrite store_flags_lookup by done.
    case_decide as Heq; [done|].
    apply (tr_flags _ _ _ _ _ Htr); [done|].
    destruct Hdj as [Hdj|Hdj]; [|by right].
    destruct (Z.eq_dec d (j + 1)) as [->|Hne]; [|left; lia].
    exfalso. apply Heq. rewrite Hnext. done.
Qed.

Lemma tracking_wait j st :
  tracking rb0 c0 K j st -> 0 <= j < K -> check_flush st = (st, []).
Proof.
  intros Htr Hj. apply check_flush_wait.
  pose proof (wf_num _ Hwf0) as HN. pose proof (wf_next _ Hwf0) as Hm.
  pose proof (half_bounds _ HN) as Hh.
  rewrite flush_start_eq; [| apply (wf_num _ (tr_wf _ _ _ _ _ Htr))
                           | rewrite (tr_matched _ _ _ _ _ Htr); lia].
  rewrite (tr_next _ _ _ _ _ Htr), (tr_matched _ _ _ _ _ Htr), (tr_num _ _ _ _ _ Htr).
  intros Heq. apply off_inj in Heq; lia.
Qed.

(** At offset [K] the cursor has reached the flush start and every slot
    is pending: the flush sends all [N] slots, the matched one at
    position [(N - N/2) mod N]. *)
Lemma tracking_flush st :
  tracking rb0 c0 K K st ->
  let out := (check_flush st).2 in
  length out = Z.to_nat (_buffer_num rb0) /\
  Forall (fun c => length c = Z.to_nat (_buffer_size rb0)) out /\
  out !! Z.to_nat ((_buffer_num rb0 - _buffer_num rb0 / 2) mod _buffer_num rb0) = Some c0.
Proof.
  intros Htr out.
  pose proof (wf_num _ Hwf0) as HN. pose proof (wf_next _ Hwf0) as Hm.
  pose proof (half_bounds _ HN) as Hh.
  pose proof (tr_wf _ _ _ _ _ Htr) as Hwf.
  pose proof (tr_num _ _ _ _ _ Htr) as Hnum.
  pose proof (tr_matched _ _ _ _ _ Htr) as Hmat.
  set (m := _next_buffer_idx rb0) in *. set (N := _buffer_num rb0) in *.
  assert (Hfs : flush_start st = (m + N / 2) mod N).
  { rewrite flush_start_eq; [by rewrite Hmat, Hnum | lia | lia]. }
  assert (Hfire : _next_buffer_idx st = flush_start st).
  { rewrite Hfs, (tr_next _ _ _ _ _ Htr). fold m N.
    destruct (decide (N = 1)) as [HN1|HN1].
    - rewrite HN1, !Z.mod_1_r. done.
    - f_equal. lia. }
  assert (Hrange : 0 <= flush_start st < _buffer_num st).
  { rewrite Hfs, Hnum. apply Z.mod_pos_bound. lia. }
  assert (Hall : forall i, (i < Z.to_nat N)%nat -> _buffer_print_flag st !! i = Some 0).
  { intros i Hi.
    pose proof (tr_flags _ _ _ _ _ Htr ((Z.of_nat i - m) mod N)) as Hf.
    rewrite off_surj in Hf by lia. rewrite Nat2Z.id in Hf. apply Hf.
    - apply Z.mod_pos_bound. lia.
    - destruct (Z_le_gt_dec ((Z.of_nat i - m) mod N) K); [left|right]; lia. }
  subst out. rewrite check_flush_fire by (try rewrite Hmat; lia). simpl.
  rewrite collectTo_window by done. unfold spec_window.
  rewrite filter_all.
  2:{ intros x Hx. apply wrap_order_elem in Hx; [|lia]. apply Hall. rewrite <-Hnum. done. }
  split; [|split].
  - rewrite length_map, length_wrap_order, Hnum. done.
  - rewrite <-(tr_size _ _ _ _ _ Htr).
    pose proof (spec_window_sizes st (flush_start st) Hwf) as Hsz. unfold spec_window in Hsz.
    rewrite filter_all in Hsz; [done|].
    intros x Hx. apply wrap_order_elem in Hx; [|lia]. apply Hall. rewrite <-Hnum. done.
  - rewrite lookup_map_list, Hnum, wrap_order_lookup.
    2:{ apply Nat2Z.inj_lt. rewrite !Z2Nat.id; [|lia|].
        - apply Z.mod_pos_bound. lia.
        - apply Z.mod_pos_bound. lia. }
    simpl. f_equal.
    rewrite <-Z2Nat.inj_add, <-Z2Nat.inj_mod; try (apply Z.mod_pos_bound; lia); try lia.
    2:{ pose proof (Z.mod_pos_bound (m + N / 2) N). pose proof (Z.mod_pos_bound (N - N / 2) N). lia. }
    rewrite Hfs, <-Zplus_mod.
    replace (m + N / 2 + (N - N / 2)) with (m + 1 * N) by ring.
    rewrite Z_mod_plus_full, Z.mod_small by lia.
    rewrite <-(tr_slot _ _ _ _ _ Htr). done.
Qed.

Lemma store_slot_at_next rb data :
  wf rb ->
  get_slot (store rb data) (_next_buffer_idx rb) =
  map Some data ++ drop (length data) (get_slot rb (_next_buffer_idx rb)).
Proof.
  intros Hwf. unfold get_slot at 1. rewrite store_buffer_lookup by done.
  rewrite decide_True by done. done.
Qed.

(** The cycle that reads [data0] into slot [m] while idle and finds a
    pattern in it starts the window at offset 0. *)
Lemma tracking_start data0 :
  _matched_buffer_idx rb0 = -1 ->
  read_ok rb0 data0 ->
  c0 = map Some data0 ++ drop (length data0) (get_slot rb0 (_next_buffer_idx rb0)) ->
  Target_match (_target rb0) c0 (Z.of_nat (length data0)) = true ->
  (forall d, K < d < _buffer_num rb0 ->
     _buffer_print_flag rb0 !! Z.to_nat ((_next_buffer_idx rb0 + d) mod _buffer_num rb0) = Some 0) ->
  tracking rb0 c0 K 0
    (register (store rb0 data0) (_next_buffer_idx rb0) (Z.of_nat (length data0))).
Proof.
  intros Hidle Hok Hc0 Hmatch Hpend.
  pose proof (wf_num _ Hwf0) as HN. pose proof (wf_next _ Hwf0) as Hm.
  pose proof (half_bounds _ HN) as Hh.
  pose proof (store_wf _ _ Hwf0 Hok) as Hwf1.
  assert (Hreg : register (store rb0 data0) (_next_buffer_idx rb0) (Z.of_nat (length data0))
                 = set_matched (store rb0 data0) (_next_buffer_idx rb0)).
  { unfold register. rewrite store_slot_at_next, <-Hc0 by done.
    destruct (store_fields rb0 data0) as (_ & _ & -> & ->).
    rewrite Hidle, Hmatch. done. }
  assert (Hwf2 : wf (register (store rb0 data0) (_next_buffer_idx rb0) (Z.of_nat (length data0)))).
  { apply register_wf; [done|]. simpl. lia. }
  rewrite Hreg in Hwf2 |- *.
  destruct (store_fields rb0 data0) as (Hn1 & Hs1 & _ & _).
  constructor; unfold set_matched;
    cbn [_buffer _buffer_num _buffer_size _next_buffer_idx _matched_buffer_idx
         _target _buffer_print_flag].
  - done.
  - done.
  - done.
  - done.
  - rewrite store_next by lia. done.
  - unfold get_slot. cbn [_buffer].
    rewrite store_buffer_lookup, decide_True by done. simpl. by rewrite Hc0.
  - intros d Hd [Hd0|Hd0].
    + assert (d = 0) as -> by lia. rewrite off_zero by lia.
      rewrite store_flags_lookup, decide_True by done. done.
    + rewrite store_flags_lookup by done. rewrite decide_False; [apply Hpend; lia|].
      intros Heq. apply Z2Nat.inj in Heq; [|apply Z.mod_pos_bound; lia|lia].
      assert (d = 0) by (apply (off_inj (_next_buffer_idx rb0) (_buffer_num rb0)); [lia|lia|lia|rewrite off_zero by lia; exact Heq]).
      lia.
Qed.

Lemma drive_cons_true rb data rest rb1 out :
  readFrom rb data = (true, rb1, out) ->
  (drive rb (data :: rest)).2 = out ++ (drive rb1 rest).2.
Proof. intros H. simpl. rewrite H. destruct (drive rb1 rest). done. Qed.

(** From offset [j], the remaining [K - j] reads keep the window and the
    flush at offset [K] sends the whole ring. *)
Lemma tracking_run datas j st :
  tracking rb0 c0 K j st -> 0 <= j -> j + Z.of_nat (length datas) = K ->
  Forall (fun d => (0 < length d)%nat /\ read_ok rb0 d) datas ->
  let out := (check_flush st).2 ++ (drive (check_flush st).1 datas).2 in
  length out = Z.to_nat (_buffer_num rb0) /\
  Forall (fun c => length c = Z.to_nat (_buffer_size rb0)) out /\
  out !! Z.to_nat ((_buffer_num rb0 - _buffer_num rb0 / 2) mod _buffer_num rb0) = Some c0.
Proof.
  pose proof (wf_num _ Hwf0) as HN. pose proof (half_bounds _ HN) as Hh.
  revert j st. induction datas as [|d datas IH]; intros j st Htr Hj Hlen Hok out; subst out.
  - simpl in Hlen. rewrite Z.add_0_r in Hlen. subst j.
    simpl. rewrite app_nil_r. apply tracking_flush. done.
  - simpl in Hlen. apply Forall_cons in Hok as [[Hd Hokd] Hok].
    rewrite (tracking_wait j st) by (done || lia). cbn [fst snd]. rewrite app_nil_l.
    pose proof (tracking_store j st d Htr Hj ltac:(lia) Hokd) as Htr1.
    rewrite (drive_cons_true _ _ _ (check_flush (store st d)).1 (check_flush (store st d)).2).
    + apply (IH (j + 1)); [done|lia|lia|done].
    + rewrite readFrom_regular by done. simpl.
      rewrite register_tracking; [done|].
      rewrite (proj1 (proj2 (proj2 (store_fields st d)))), (tr_matched _ _ _ _ _ Htr).
      apply (wf_next _ Hwf0).
Qed.

End Tracking.

End Window.

(** ** The example states are well formed *)

Module Examples.
Import Steps.

Lemma ring_ex_wf : wf ring_ex.
Proof.
  apply drive_wf; [apply new_wf; lia|].
  repeat apply List.Forall_cons; try apply List.Forall_nil; apply Nat.leb_le; reflexivity.
Qed.

Lemma ring_match_wf : wf ring_match.
Proof.
  apply drive_wf; [apply ring_ex_wf|].
  repeat apply List.Forall_cons; try apply List.Forall_nil; apply Nat.leb_le; reflexivity.
Qed.

End Examples.

(** ** Lemmas on the readers, the driver loops and [Target] *)

Module Extras.
Import Collect Steps Window.

(** *** [StreamReader] *)

Lemma StreamReader_read_open s p n :
  StreamReader_read (mkIstream s p false) n =
  (Z.of_nat (length (take n (drop p s))), take n (drop p s),
   mkIstream s (p + length (take n (drop p s)))
     (bool_decide (length (take n (drop p s)) < n)%nat)).
Proof. done. Qed.

Lemma reader_reads_from s n fuel p :
  (0 < n)%nat -> ((length s - p) / n + 2 <= fuel)%nat ->
  reader_reads fuel n (mkIstream s p false) =
  replicate ((length s - p) / n) (Z.of_nat n) ++
  (if ((length s - p) mod n =? 0)%nat then [0] else [Z.of_nat ((length s - p) mod n); -1]).
Proof.
  intros Hn. revert p. induction fuel as [|fuel IH]; intros p Hf; [lia|].
  cbn [reader_reads]. rewrite StreamReader_read_open. rewrite length_take, length_drop.
  destruct (decide (n <= length s - p)%nat) as [Hge|Hlt].
  - rewrite Nat.min_l by lia.
    assert (Hq : ((length s - p) / n = S ((length s - (p + n)) / n))%nat).
    { replace (length s - p)%nat with ((length s - (p + n)) + 1 * n)%nat by lia.
      rewrite Nat.div_add by lia. lia. }
    assert (Hr : ((length s - p) mod n = (length s - (p + n)) mod n)%nat).
    { replace (length s - p)%nat with ((length s - (p + n)) + 1 * n)%nat by lia.
      apply Nat.Div0.mod_add. }
    rewrite (proj2 (Z.leb_gt _ _)) by lia.
    rewrite bool_decide_eq_false_2 by lia.
    rewrite Hq, Hr. cbn [replicate app]. f_equal. apply IH. lia.
  - rewrite Nat.min_r by lia.
    rewrite Nat.div_small, Nat.mod_small by lia. cbn [replicate app].
    destruct (length s - p)%nat as [|r] eqn:Er.
    + done.
    + rewrite (proj2 (Z.leb_gt _ _)) by lia.
      rewrite bool_decide_eq_true_2 by lia.
      destruct fuel as [|fuel']; [lia|]. done.
Qed.

(** *** The driver loop over a [StreamReader] *)

Lemma readFrom_empty rb : (readFrom rb []).1.1 = false.
Proof. rewrite readFrom_eos by done. done. Qed.

Lemma readFrom_true_nonempty rb data :
  (readFrom rb data).1.1 = true -> (0 < length data)%nat.
Proof.
  destruct (length data) eqn:E; [|lia]. rewrite readFrom_eos by done. done.
Qed.

Lemma stream_loop_eof fuel rb s p :
  stream_loop fuel rb (mkIstream s p true) = run_stream fuel rb [].
Proof.
  destruct fuel as [|fuel]; [done|]. cbn [stream_loop run_stream StreamReader_read is_eof].
  rewrite take_nil.
  pose proof (readFrom_empty rb) as Hb.
  destruct (readFrom rb []) as [[b rb1] out]. simpl in Hb. subst b. done.
Qed.

Lemma stream_loop_run fuel rb s p :
  0 < _buffer_size rb ->
  stream_loop fuel rb (mkIstream s p false) = run_stream fuel rb (drop p s).
Proof.
  revert rb p. induction fuel as [|fuel IH]; intros rb p Hs; [done|].
  cbn [stream_loop run_stream]. rewrite StreamReader_read_open.
  set (data := take (Z.to_nat (_buffer_size rb)) (drop p s)).
  pose proof (readFrom_dims rb data) as (_ & Hs1 & _).
  destruct (readFrom rb data) as [[b rb1] out] eqn:E. simpl in Hs1.
  destruct b; [|done].
  assert (Heq : stream_loop fuel rb1
      (mkIstream s (p + length data) (bool_decide (length data < Z.to_nat (_buffer_size rb))%nat))
      = run_stream fuel rb1 (drop (Z.to_nat (_buffer_size rb)) (drop p s))).
  { case_bool_decide as Hlt.
    - rewrite stream_loop_eof. rewrite drop_ge; [done|].
      subst data. rewrite length_take in Hlt. lia.
    - assert (Hd : length data = Z.to_nat (_buffer_size rb)).
      { subst data. rewrite length_take in Hlt |- *. lia. }
      rewrite Hd, drop_drop. apply IH. lia. }
  rewrite Heq. done.
Qed.

Lemma run_stream_fuel f g rb s :
  0 < _buffer_size rb -> (length s < f)%nat -> (length s < g)%nat ->
  run_stream f rb s = run_stream g rb s.
Proof.
  revert g rb s. induction f as [|f IH]; intros g rb s Hs Hf Hg; [lia|].
  destruct g as [|g]; [lia|]. cbn [run_stream].
  set (data := take (Z.to_nat (_buffer_size rb)) s).
  pose proof (readFrom_dims rb data) as (_ & Hs1 & _).
  pose proof (readFrom_true_nonempty rb data) as Hne.
  destruct (readFrom rb data) as [[b rb1] out] eqn:E. simpl in Hs1, Hne.
  destruct b; [|done].
  specialize (Hne eq_refl). subst data. rewrite length_take in Hne.
  rewrite (IH g rb1); [done|lia| |]; rewrite length_drop; lia.
Qed.

(** *** [Target] *)

Lemma match_loop_app l1 l2 h :
  match_loop (l1 ++ l2) h = match_loop l1 h || match_loop l2 h.
Proof.
  induction l1 as [|p l1 IH]; [done|]. cbn [app match_loop].
  destruct (memmem h p); [done|]. apply IH.
Qed.

Lemma match_loop_exists l h :
  match_loop l h = true <-> exists p, p ∈ l /\ is_Some (memmem h p).
Proof.
  induction l as [|p l IH]; cbn [match_loop].
  - split; [done|]. intros (q & Hq & _). set_solver.
  - destruct (memmem h p) eqn:E.
    + split; [|done]. intros _. exists p. split; [set_solver|]. rewrite E. done.
    + rewrite IH. split.
      * intros (q & Hq & Hs). exists q. split; [set_solver|done].
      * intros (q & Hq & Hs). apply elem_of_cons in Hq as [->|Hq].
        -- rewrite E in Hs. destruct Hs as [? Hs]. done.
        -- exists q. done.
Qed.

Lemma is_prefix_long needle hay :
  (length hay < length needle)%nat -> is_prefix needle hay = false.
Proof.
  revert hay. induction needle as [|b needle IH]; intros hay Hl; simpl in Hl; [lia|].
  destruct hay as [|[c|] hay]; simpl; try done.
  simpl in Hl. rewrite IH by lia. apply andb_false_r.
Qed.

Lemma memmem_long hay needle :
  (length hay < length needle)%nat -> memmem hay needle = None.
Proof.
  induction hay as [|c hay IH]; intros Hl; simpl.
  - rewrite is_prefix_long by done. done.
  - rewrite is_prefix_long by done. rewrite IH by (simpl in Hl; lia). done.
Qed.

Lemma memmem_empty_hay needle :
  is_Some (memmem [] needle) <-> needle = [].
Proof.
  destruct needle as [|b needle]; simpl; split; intros H; try done.
Qed.

Lemma match_loop_bool_eq l l' h h' :
  (match_loop l h = true <-> match_loop l' h' = true) -> match_loop l h = match_loop l' h'.
Proof. destruct (match_loop l h), (match_loop l' h'); intuition. Qed.

(** Lines 246-250 see the slot just written through its first [nread]
    bytes only: those are the bytes the read returned. *)
Lemma target_match_new_bytes t rb data :
  wf rb ->
  Target_match t (get_slot (store rb data) (_next_buffer_idx rb)) (Z.of_nat (length data))
  = Target_match t (map Some data) (Z.of_nat (length data)).
Proof.
  intros Hwf. rewrite store_slot_at_next by done. unfold Target_match. rewrite Nat2Z.id.
  rewrite <-(length_map Some data) at 1 3. rewrite take_app_length, take_ge by done. done.
Qed.

(** *** Idle cycles *)

Lemma cycle_no_match rb data :
  wf rb -> _matched_buffer_idx rb < 0 ->
  Target_match (_target rb) (map Some data) (Z.of_nat (length data)) = false ->
  readFrom rb data = (negb (length data =? 0)%nat, store rb data, []).
Proof.
  intros Hwf Hm Ht.
  destruct (length data) as [|k] eqn:Hl.
  - rewrite readFrom_eos by done. rewrite end_of_stream_idle by done. done.
  - rewrite readFrom_regular by lia. cbv zeta. rewrite <-Hl in Ht.
    assert (Hreg : register (store rb data) (_next_buffer_idx rb) (Z.of_nat (length data))
                   = store rb data).
    { unfold register. rewrite target_match_new_bytes by done.
      destruct (store_fields rb data) as (_ & _ & _ & ->). rewrite Ht, andb_false_r.
      done. }
    rewrite Hreg, check_flush_idle by done. done.
Qed.

(** *** Pending slots *)

Lemma filter_seq_shift (a : Z) (l : list Z) k n :
  filter (fun i => (a :: l) !! i = Some 0) (seq (S k) n)
  = map S (filter (fun i => l !! i = Some 0) (seq k n)).
Proof.
  revert k. induction n as [|n IH]; intros k; [done|].
  cbn [seq]. rewrite !filter_cons. cbn [lookup list_lookup].
  destruct (decide (l !! k = Some 0)); rewrite IH; reflexivity.
Qed.

Lemma pending_idx (l : list Z) :
  length (filter (fun f => f = 0) l)
  = length (filter (fun i => l !! i = Some 0) (seq 0 (length l))).
Proof.
  induction l as [|a l IH]; [done|].
  cbn [length seq]. rewrite !filter_cons. cbn [lookup list_lookup].
  rewrite filter_seq_shift.
  destruct (decide (a = 0)) as [->|Ha].
  - rewrite !decide_True by done. cbn [length]. rewrite length_map, <-IH. done.
  - rewrite !decide_False by congruence. rewrite length_map, <-IH. done.
Qed.

Lemma pending_none (l : list Z) :
  (forall i, l !! i <> Some 0) -> length (filter (fun f => f = 0) l) = 0%nat.
Proof.
  induction l as [|a l IH]; intros H; [done|].
  rewrite filter_cons, decide_False.
  - apply IH. intros i. apply (H (S i)).
  - intros ->. apply (H 0%nat). done.
Qed.

Lemma pending_insert_le (l : list Z) i x :
  (length (filter (fun f => f = 0%Z) (<[i := x]> l))
   <= length (filter (fun f => f = 0%Z) l) + 1)%nat.
Proof.
  revert i. induction l as [|a l IH]; intros i; [destruct i; simpl; lia|].
  destruct i as [|i]; cbn [insert list_insert].
  - rewrite !filter_cons. do 2 case_decide; simpl; lia.
  - specialize (IH i). rewrite !filter_cons. destruct (decide (a = 0)); simpl; [apply -> Nat.succ_le_mono|]; exact IH.
Qed.

Lemma wrap_order_perm s n : (s < n)%nat -> wrap_order s n ≡ₚ seq 0 n.
Proof.
  intros Hs. apply NoDup_Permutation; [by apply wrap_order_NoDup | apply NoDup_seq |].
  intros x. rewrite wrap_order_elem by lia. rewrite elem_of_seq. lia.
Qed.

Lemma collectTo_count start rb :
  wf rb -> 0 <= start < _buffer_num rb ->
  length (collectTo start rb).2 = pending rb /\ pending (collectTo start rb).1 = 0%nat.
Proof.
  intros Hwf Hs. split.
  - rewrite collectTo_window by done. unfold spec_window, pending.
    rewrite length_map, pending_idx, (wf_flags _ Hwf).
    apply Permutation_length, filter_Permutation, wrap_order_perm. lia.
  - unfold pending. apply pending_none. apply collectTo_cleared; done.
Qed.

Lemma filter_none (P : nat -> Prop) `{!forall x, Decision (P x)} (l : list nat) :
  (forall x, ~ P x) -> filter P l = [].
Proof.
  intros HP. induction l as [|a l IH]; [done|].
  rewrite filter_cons, decide_False by apply HP. done.
Qed.

Lemma collectTo_again start rb :
  wf rb -> (forall i, _buffer_print_flag rb !! i <> Some 0) ->
  0 <= start < _buffer_num rb -> (collectTo start rb).2 = [].
Proof.
  intros Hwf Hc Hs. rewrite collectTo_window by done. unfold spec_window.
  rewrite filter_none by apply Hc. done.
Qed.

(** *** Accounting of one cycle *)

Lemma pending_set_matched rb i : pending (set_matched rb i) = pending rb.
Proof. done. Qed.

Lemma store_flags rb data :
  _buffer_print_flag (store rb data)
  = <[Z.to_nat (_next_buffer_idx rb) := 0]> (_buffer_print_flag rb).
Proof. done. Qed.

Lemma pending_store rb data : (pending (store rb data) <= pending rb + 1)%nat.
Proof. unfold pending. rewrite store_flags. apply pending_insert_le. Qed.

Lemma pending_register rb idx nread : pending (register rb idx nread) = pending rb.
Proof.
  unfold pending. destruct (register_fields rb idx nread) as (_ & _ & _ & _ & -> & _). done.
Qed.

Lemma flush_sizes start st :
  wf st -> 0 <= start < _buffer_num st ->
  Forall (fun c => length c = Z.to_nat (_buffer_size st)) (collectTo start st).2.
Proof. intros. rewrite collectTo_window by done. apply spec_window_sizes. done. Qed.

Lemma check_flush_accounting st :
  wf st ->
  (length (check_flush st).2 + pending (check_flush st).1 = pending st)%nat /\
  Forall (fun c => length c = Z.to_nat (_buffer_size st)) (check_flush st).2.
Proof.
  intros Hwf.
  destruct (Z_lt_le_dec (_matched_buffer_idx st) 0) as [Hm|Hm].
  - rewrite check_flush_idle by done. done.
  - pose proof (flush_start_range st (wf_num _ Hwf) Hm) as Hr.
    destruct (Z.eq_dec (_next_buffer_idx st) (flush_start st)) as [Hn|Hn].
    + rewrite check_flush_fire by done. cbn [fst snd].
      rewrite pending_set_matched.
      destruct (collectTo_count _ _ Hwf Hr) as [-> ->].
      split; [lia|]. apply flush_sizes; done.
    + rewrite check_flush_wait by done. done.
Qed.

Lemma end_of_stream_accounting st :
  wf st ->
  (length (end_of_stream st).2 + pending (end_of_stream st).1 = pending st)%nat /\
  Forall (fun c => length c = Z.to_nat (_buffer_size st)) (end_of_stream st).2.
Proof.
  intros Hwf.
  destruct (Z_lt_le_dec (_matched_buffer_idx st) 0) as [Hm|Hm].
  - rewrite end_of_stream_idle by done. done.
  - pose proof (flush_start_range st (wf_num _ Hwf) Hm) as Hr.
    rewrite end_of_stream_fire by done. cbn [fst snd].
    rewrite pending_set_matched.
    destruct (collectTo_count _ _ Hwf Hr) as [-> ->].
    split; [lia|]. apply flush_sizes; done.
Qed.

Lemma readFrom_accounting rb data :
  wf rb -> read_ok rb data ->
  (length (readFrom rb data).2 + pending (readFrom rb data).1.2 <= pending rb + 1)%nat /\
  Forall (fun c => length c = Z.to_nat (_buffer_size rb)) (readFrom rb data).2.
Proof.
  intros Hwf Hok. pose proof (store_wf _ _ Hwf Hok) as Hwf1.
  pose proof (pending_store rb data) as Hp.
  destruct (store_fields rb data) as (_ & Hs1 & _ & _).
  destruct (length data) as [|k] eqn:Hl.
  - rewrite readFrom_eos by done. cbn [fst snd].
    destruct (end_of_stream_accounting _ Hwf1) as [H1 H2]. rewrite Hs1 in H2.
    split; [lia|done].
  - rewrite readFrom_regular by lia. cbv zeta. cbn [fst snd].
    set (st := register (store rb data) (_next_buffer_idx rb) (Z.of_nat (length data))).
    assert (Hwf2 : wf st) by (apply register_wf; [done | apply (wf_next _ Hwf)]).
    destruct (check_flush_accounting _ Hwf2) as [H1 H2].
    destruct (register_fields (store rb data) (_next_buffer_idx rb) (Z.of_nat (length data)))
      as (_ & _ & Hs2 & _).
    fold st in Hs2. rewrite Hs2, Hs1 in H2.
    unfold st in H1 at 3. rewrite pending_register in H1.
    split; [lia|done].
Qed.

Lemma drive_accounting rb reads :
  wf rb -> Forall (read_ok rb) reads ->
  (length (drive rb reads).2 + pending (drive rb reads).1 <= pending rb + length reads)%nat /\
  Forall (fun c => length c = Z.to_nat (_buffer_size rb)) (drive rb reads).2.
Proof.
  revert rb. induction reads as [|d reads IH]; intros rb Hwf Hok; [simpl; split; [lia|done]|].
  apply Forall_cons in Hok as [Hd Hok].
  destruct (readFrom_accounting rb d Hwf Hd) as [H1 H2].
  pose proof (readFrom_wf rb d Hwf Hd) as Hwf1.
  pose proof (readFrom_dims rb d) as (_ & Hs1 & _).
  cbn [drive].
  destruct (readFrom rb d) as [[b rb1] out] eqn:E. cbn [fst snd] in *.
  destruct b.
  - assert (Hok1 : Forall (read_ok rb1) reads).
    { eapply Forall_impl; [exact Hok|]. intros x. unfold read_ok. rewrite Hs1. done. }
    destruct (IH rb1 Hwf1 Hok1) as [H3 H4].
    destruct (drive rb1 reads) as [rb2 out'] eqn:E2. cbn [fst snd] in *.
    rewrite length_app. split; [cbn [length]; lia|].
    apply Forall_app. split; [done|]. rewrite <-Hs1. done.
  - cbn [fst snd length]. split; [lia|done].
Qed.

Lemma run_stream_accounting fuel rb s :
  wf rb ->
  (length (concat (run_stream fuel rb s).2) + pending (run_stream fuel rb s).1
   <= pending rb + (length s + Z.to_nat (_buffer_size rb) - 1) / Z.to_nat (_buffer_size rb) + 1)%nat /\
  Forall (fun c => length c = Z.to_nat (_buffer_size rb)) (concat (run_stream fuel rb s).2).
Proof.
  revert rb s. induction fuel as [|fuel IH]; intros rb s Hwf; [simpl; split; [lia|done]|].
  pose proof (wf_size _ Hwf) as HS.
  set (n := Z.to_nat (_buffer_size rb)).
  assert (Hn : (0 < n)%nat) by (subst n; lia).
  cbn [run_stream]. fold n.
  set (data := take n s).
  assert (Hd : read_ok rb data) by (unfold read_ok, data; rewrite length_take; lia).
  destruct (readFrom_accounting rb data Hwf Hd) as [H1 H2].
  pose proof (readFrom_wf rb data Hwf Hd) as Hwf1.
  pose proof (readFrom_dims rb data) as (_ & Hs1 & _).
  pose proof (readFrom_true_nonempty rb data) as Hne.
  destruct (readFrom rb data) as [[b rb1] out] eqn:E. cbn [fst snd] in *.
  destruct b.
  - specialize (Hne eq_refl). unfold data in Hne. rewrite length_take in Hne.
    destruct (IH rb1 (drop n s) Hwf1) as [H3 H4].
    destruct (run_stream fuel rb1 (drop n s)) as [rb2 outs] eqn:E2. cbn [fst snd] in *.
    rewrite Hs1 in H3, H4. fold n in H3, H4.
    rewrite length_drop in H3.
    assert (Hdiv : ((length s - n + n - 1) / n + 1 <= (length s + n - 1) / n)%nat).
    { destruct (decide (n <= length s)%nat) as [Hge|Hlt].
      - replace (length s + n - 1)%nat with ((length s - n + n - 1) + 1 * n)%nat by lia.
        rewrite Nat.div_add by lia. lia.
      - replace (length s - n + n - 1)%nat with (n - 1)%nat by lia.
        rewrite Nat.div_small by lia.
        pose proof (Nat.Div0.div_le_mono n (length s + n - 1) n ltac:(lia)) as Hm.
        rewrite Nat.div_same in Hm by lia. lia. }
    cbn [concat]. rewrite length_app. split; [lia|].
    apply Forall_app. split; [done|]. done.
  - cbn [fst snd concat]. rewrite ?app_nil_r. split; [lia|done].
Qed.

(** *** The cursor *)

Lemma check_flush_next st : _next_buffer_idx (check_flush st).1 = _next_buffer_idx st.
Proof.
  unfold check_flush. destruct (0 <=? _); [|done]. destruct (_ =? _); [|done].
  destruct (collectTo_fields (flush_start st) st) as (_ & _ & _ & Hn & _).
  destruct (collectTo _ _) as [rb' out]. simpl in *. done.
Qed.

Lemma end_of_stream_next st : _next_buffer_idx (end_of_stream st).1 = _next_buffer_idx st.
Proof.
  unfold end_of_stream. destruct (0 <=? _); [|done].
  destruct (collectTo_fields (flush_start st) st) as (_ & _ & _ & Hn & _).
  destruct (collectTo _ _) as [rb' out]. simpl in *. done.
Qed.

Lemma readFrom_next rb data :
  wf rb ->
  _next_buffer_idx (readFrom rb data).1.2 = (_next_buffer_idx rb + 1) mod _buffer_num rb.
Proof.
  intros Hwf. pose proof (wf_next _ Hwf). pose proof (wf_num _ Hwf).
  destruct (length data) as [|k] eqn:Hl.
  - rewrite readFrom_eos by done. cbn [fst snd]. rewrite end_of_stream_next.
    apply store_next; lia.
  - rewrite readFrom_regular by lia. cbv zeta. cbn [fst snd]. rewrite check_flush_next.
    destruct (register_fields (store rb data) (_next_buffer_idx rb) (Z.of_nat (length data)))
      as (_ & _ & _ & -> & _).
    apply store_next; lia.
Qed.

End Extras.

(** ** The claims *)

Import Collect Steps Matching Window Examples Extras.

(** C2: while a match is tracked, the flush start is
    [(activeMatchSlot + N/2) mod N]; in a cycle that read data the flush
    happens exactly when the write cursor [nextSlot] equals it, and it
    sends every still-pending slot with its full [S] bytes in the order
    [flushStart, ..., N-1, 0, ..., flushStart-1], clearing their flags;
    otherwise nothing is sent and the state is kept. *)
Theorem flush_schedule rb data :
  wf rb -> read_ok rb data -> (0 < length data)%nat ->
  let rb2 := register (store rb data) (_next_buffer_idx rb) (Z.of_nat (length data)) in
  0 <= _matched_buffer_idx rb2 ->
  let start := (_matched_buffer_idx rb2 + _buffer_num rb / 2) mod _buffer_num rb in
  flush_start rb2 = start /\
  (_next_buffer_idx rb2 = start ->
     (readFrom rb data).2 = spec_window rb2 start /\
     Forall (fun c => length c = Z.to_nat (_buffer_size rb)) (readFrom rb data).2 /\
     (forall i, _buffer_print_flag (readFrom rb data).1.2 !! i <> Some 0) /\
     _matched_buffer_idx (readFrom rb data).1.2 = -1) /\
  (_next_buffer_idx rb2 <> start -> readFrom rb data = (true, rb2, [])).
Proof.
  intros Hwf Hok Hl rb2 Hm start. subst rb2 start.
  rewrite readFrom_regular by done. cbv zeta.
  set (rb2 := register (store rb data) _ _) in *.
  assert (Hwf2 : wf rb2) by (apply register_wf; [by apply store_wf | apply (wf_next _ Hwf)]).
  pose proof (register_fields (store rb data) (_next_buffer_idx rb) (Z.of_nat (length data)))
    as (_ & Hnum & Hsize & _).
  fold rb2 in Hnum, Hsize. simpl in Hnum, Hsize.
  assert (Hfs : flush_start rb2 = (_matched_buffer_idx rb2 + _buffer_num rb / 2) mod _buffer_num rb).
  { rewrite flush_start_eq, Hnum; [done | apply (wf_num _ Hwf2) | done]. }
  pose proof (flush_start_range rb2 (wf_num _ Hwf2) Hm) as Hrange.
  split; [done|split].
  - intros Hn. rewrite <-Hfs in Hn |- *. rewrite check_flush_fire by done. simpl.
    rewrite collectTo_window by done. split; [done|split; [|split]].
    + rewrite <-Hsize. apply spec_window_sizes. done.
    + by apply collectTo_cleared.
    + done.
  - intros Hn. rewrite check_flush_wait by congruence. done.
Qed.

(** C4: a cycle returns false exactly when the read returned nothing
    ([nread <= 0]); then, if a match was tracked, one forced flush sends
    the still-pending slots from the precomputed flush start
    [(activeMatchSlot + N/2) mod N] in wrap-around order and clears them,
    and the tracking state ends idle; with no match nothing is sent. *)
Theorem end_of_stream_flush rb data :
  wf rb -> read_ok rb data ->
  ((readFrom rb data).1.1 = false <-> Z.of_nat (length data) <= 0) /\
  (Z.of_nat (length data) <= 0 ->
     _matched_buffer_idx (readFrom rb data).1.2 = -1 /\
     (0 <= _matched_buffer_idx rb ->
        let rb1 := store rb data in
        flush_start rb1 = (_matched_buffer_idx rb + _buffer_num rb / 2) mod _buffer_num rb /\
        (readFrom rb data).2 = spec_window rb1 (flush_start rb1) /\
        (forall i, _buffer_print_flag (readFrom rb data).1.2 !! i <> Some 0)) /\
     (_matched_buffer_idx rb < 0 -> (readFrom rb data).2 = [])).
Proof.
  intros Hwf Hok. split.
  - destruct (length data) as [|k] eqn:Hl.
    + rewrite readFrom_eos by done. simpl. split; [intros _; lia|done].
    + rewrite readFrom_regular by lia. simpl. split; [done|lia].
  - intros Hle. assert (Hl : length data = 0%nat) by lia.
    rewrite readFrom_eos by done. simpl.
    pose proof (store_wf _ _ Hwf Hok) as Hwf1.
    destruct (Z_le_gt_dec 0 (_matched_buffer_idx rb)) as [Hm|Hm].
    + rewrite end_of_stream_fire by done. simpl.
      pose proof (flush_start_range (store rb data) (wf_num _ Hwf1) Hm) as Hr.
      split; [done|split; [|lia]].
      intros _. split; [|split].
      * rewrite flush_start_eq; [done | apply (wf_num _ Hwf1) | exact Hm].
      * by apply collectTo_window.
      * by apply collectTo_cleared.
    + rewrite end_of_stream_idle by (simpl; lia). simpl.
      destruct (wf_matched _ Hwf) as [Hm1|Hm1]; [|lia].
      split; [done|split; [lia|done]].
Qed.

(** C7: the tracked match is always none ([-1]) or one valid slot index;
    while a match is tracked a cycle never registers another one: the
    index after the cycle is the same one, or [-1] when the cycle ended
    the stream or reached the flush start, whatever the bytes read. *)
Theorem single_active_match rb data :
  wf rb -> read_ok rb data ->
  (_matched_buffer_idx (readFrom rb data).1.2 = -1 \/
   0 <= _matched_buffer_idx (readFrom rb data).1.2 < _buffer_num rb) /\
  (0 <= _matched_buffer_idx rb ->
   _matched_buffer_idx (readFrom rb data).1.2 =
     if (length data =? 0)%nat
        || ((_next_buffer_idx rb + 1) mod _buffer_num rb =? flush_start rb)
     then -1 else _matched_buffer_idx rb).
Proof.
  intros Hwf Hok. split.
  - pose proof (readFrom_wf _ _ Hwf Hok) as Hwf'.
    pose proof (readFrom_dims rb data) as (Hn & _).
    rewrite <-Hn. apply (wf_matched _ Hwf').
  - intros Hm. pose proof (wf_next _ Hwf). pose proof (wf_num _ Hwf).
    destruct (length data) as [|k] eqn:Hl.
    + rewrite readFrom_eos by done. simpl.
      rewrite end_of_stream_fire by done. done.
    + rewrite readFrom_regular by lia. cbv zeta. simpl.
      rewrite register_tracking by done.
      assert (Hnx : _next_buffer_idx (store rb data)
                    = (_next_buffer_idx rb + 1) mod _buffer_num rb)
        by (apply store_next; lia).
      assert (Hfs : flush_start (store rb data) = flush_start rb) by done.
      destruct (Z.eqb_spec ((_next_buffer_idx rb + 1) mod _buffer_num rb) (flush_start rb)).
      * rewrite check_flush_fire by first [exact Hm | congruence]. done.
      * rewrite check_flush_wait by congruence. done.
Qed.

(** C9: the storage keeps its shape. [collectTo] leaves the slot count,
    slot size, every slot's length and the number of flags unchanged, and
    however many reads the driver loop performs after construction, the
    buffer still has [N] slots of [S] bytes and [N] flags. *)
Theorem shape_is_fixed num size target reads :
  0 < num -> 0 < size ->
  Forall (fun d => (length d <= Z.to_nat size)%nat) reads ->
  shape (drive (RingBuffer_new num size target) reads).1
    = shape (RingBuffer_new num size target) /\
  shape (RingBuffer_new num size target)
    = (num, size, replicate (Z.to_nat num) (Z.to_nat size), Z.to_nat num) /\
  (forall rb start, wf rb -> 0 <= start < _buffer_num rb ->
     shape (collectTo start rb).1 = shape rb).
Proof.
  intros Hn Hs Hr.
  pose proof (new_wf num size target Hn Hs) as Hwf.
  split; [|split].
  - destruct (drive_wf _ reads Hwf Hr) as (Hwf' & Hn' & Hs').
    rewrite (shape_wf _ Hwf'), (shape_wf _ Hwf), Hn', Hs'. done.
  - rewrite (shape_wf _ Hwf). done.
  - intros rb start Hwf1 Hst.
    pose proof (collectTo_wf _ _ Hwf1 Hst) as Hwf2.
    pose proof (collectTo_fields start rb) as (_ & Hn2 & Hs2 & _).
    rewrite (shape_wf _ Hwf2), (shape_wf _ Hwf1), Hn2, Hs2. done.
Qed.

(** C10: once an empty pattern is registered, [Target::match] holds for
    every probe, the zero-length one included, so an idle cycle that read
    data always registers a match in the slot it just wrote. *)
Theorem empty_pattern_matches_all t str len :
  Target_match (addTarget t []) str len = true /\
  (forall rb data,
     In [] (_targets (_target rb)) -> _matched_buffer_idx rb < 0 ->
     (0 < length data)%nat ->
     readFrom rb data =
       let rb2 := set_matched (store rb data) (_next_buffer_idx rb) in
       ((true, (check_flush rb2).1), (check_flush rb2).2)).
Proof.
  split.
  - unfold Target_match, addTarget. simpl.
    apply match_loop_empty_pattern. apply in_or_app. right. by left.
  - intros rb data Hin Hm Hl. rewrite readFrom_regular by done. cbv zeta.
    unfold register. simpl. rewrite (proj2 (Z.ltb_lt _ _) Hm).
    unfold Target_match. rewrite match_loop_empty_pattern by done. done.
Qed.

(** C8: [Target::match(buffer, length)] holds exactly when some
    registered pattern occurs as a contiguous run of bytes in
    [buffer[0, length)]; patterns are tried in registration order and the
    first hit decides (later patterns are not looked at); with no pattern
    it is false for every buffer. *)
Theorem target_match_spec t (buf : list byte) len :
  (Target_match t (map Some buf) len = true <->
   exists target, In target (_targets t) /\ occurs target (take (Z.to_nat len) buf)) /\
  (forall target rest, _targets t = target :: rest ->
     Target_match t (map Some buf) len =
       if bool_decide (is_Some (memmem (take (Z.to_nat len) (map Some buf)) target))
       then true else Target_match (mkTarget rest) (map Some buf) len) /\
  (_targets t = [] -> Target_match t (map Some buf) len = false).
Proof.
  split; [|split].
  - unfold Target_match. rewrite firstn_map. apply match_loop_spec.
  - intros target rest Ht. unfold Target_match. rewrite Ht. cbn [match_loop _targets].
    destruct (memmem _ target) eqn:E; case_bool_decide as Hc; try done.
    exfalso. apply Hc. done.
  - intros Ht. unfold Target_match. rewrite Ht. done.
Qed.

(** C5: with 4 slots of 4 bytes and the pattern "ab", the input of the
    first self-test gives exactly two non-empty flushes, "11112222aaab3333"
    then "cccc5555aaab6666", and the sink receives their concatenation. *)
Theorem example_two_windows :
  filter (fun o => o <> []) (bgrep_cycles ["ab"%string] 4 4
     "000011112222aaab3333bbbb4444cccc5555aaab666677778888")
  = [cells "11112222aaab3333"; cells "cccc5555aaab6666"] /\
  bgrep_output ["ab"%string] 4 4 "000011112222aaab3333bbbb4444cccc5555aaab666677778888"
  = cells "11112222aaab3333cccc5555aaab6666".
Proof. split; vm_compute; reflexivity. Qed.

(** C1 (code bug): [readFrom] marks the slot it reads into as pending
    ([_buffer_print_flag[buffer_idx] = 0], line 226) before it tests
    [nread <= 0], so the forced flush at end of stream sends that slot
    although nothing new was read into it. With 4 slots of 4 bytes and
    the pattern "ab", on "aaab00001111aaab" slot 0 holding "aaab" is sent
    by the flush of the second cycle and sent again, unchanged, by the
    end-of-stream flush of the fifth cycle. *)
Theorem eos_flush_resends_slot :
  bgrep_cycles ["ab"%string] 4 4 "aaab00001111aaab"
    = [[]; cells "aaab0000"; []; []; cells "1111aaabaaab"].
Proof. vm_compute. reflexivity. Qed.

(** C3 (counterexample): a flush need not be N*S bytes when no earlier
    window overlaps it, and the matched slot is not at position N/2 when
    N is odd. With the pattern "ab": 4 slots of 4 bytes on "aaab0000"
    flush only the two written slots (8 bytes, no earlier flush); 3 slots
    of 4 bytes on "00001111aaab" flush "0000", "1111", "aaab", the match
    at slot position 2 while 3/2 = 1. *)
Theorem centered_window_counterexample :
  bgrep_cycles ["ab"%string] 4 4 "aaab0000" = [[]; cells "aaab0000"; []] /\
  bgrep_cycles ["ab"%string] 3 4 "00001111aaab" = [[]; []; cells "00001111aaab"; []].
Proof. split; vm_compute; reflexivity. Qed.

(** C3 (amended): take a cycle that reads [data0] into slot
    [m = nextSlot] while no match is tracked and finds a pattern in it.
    If each of the next [max 0 (N/2 - 1)] reads returns data and every
    slot at offset [d] from [m] with [max 0 (N/2 - 1) < d < N] is pending
    beforehand, the flush that ends the window sends exactly [N] slots,
    [N*S] bytes, and the matched slot's content is at slot position
    [(N - N/2) mod N] of the flushed sequence: [N/2] for even [N],
    [(N+1)/2] for odd [N >= 3], [0] for [N = 1]. *)
Theorem centered_window rb0 data0 datas :
  wf rb0 -> _matched_buffer_idx rb0 = -1 ->
  (0 < length data0)%nat -> read_ok rb0 data0 ->
  Target_match (_target rb0)
    (map Some data0 ++ drop (length data0) (get_slot rb0 (_next_buffer_idx rb0)))
    (Z.of_nat (length data0)) = true ->
  Z.of_nat (length datas) = Z.max 0 (_buffer_num rb0 / 2 - 1) ->
  Forall (fun d => (0 < length d)%nat /\ read_ok rb0 d) datas ->
  (forall d, Z.of_nat (length datas) < d < _buffer_num rb0 ->
     _buffer_print_flag rb0 !! Z.to_nat ((_next_buffer_idx rb0 + d) mod _buffer_num rb0)
       = Some 0) ->
  let out := (drive rb0 (data0 :: datas)).2 in
  length out = Z.to_nat (_buffer_num rb0) /\
  length (concat out) = (Z.to_nat (_buffer_num rb0) * Z.to_nat (_buffer_size rb0))%nat /\
  out !! Z.to_nat ((_buffer_num rb0 - _buffer_num rb0 / 2) mod _buffer_num rb0)
    = Some (map Some data0 ++ drop (length data0) (get_slot rb0 (_next_buffer_idx rb0))).
Proof.
  intros Hwf Hidle Hd0 Hok Hmatch HK Hoks Hpend out. subst out.
  set (c0 := map Some data0 ++ drop (length data0) (get_slot rb0 (_next_buffer_idx rb0))) in *.
  set (K := Z.of_nat (length datas)) in *.
  set (st0 := register (store rb0 data0) (_next_buffer_idx rb0) (Z.of_nat (length data0))).
  assert (Htr : tracking rb0 c0 K 0 st0) by (eapply tracking_start; eauto).
  rewrite (drive_cons_true _ _ _ (check_flush st0).1 (check_flush st0).2)
    by (rewrite readFrom_regular by done; done).
  destruct (tracking_run rb0 c0 K Hwf HK datas 0 st0 Htr ltac:(lia) ltac:(lia) Hoks)
    as (Hl & Hs & Hp).
  split; [done|split; [|done]].
  rewrite (length_concat_uniform _ _ Hs), Hl. done.
Qed.

(** C6 (code bug): the constructor marks every slot as already flushed
    (flag 1), so a slot is meant to be sent only once a read wrote into
    it; but the end-of-stream cycle marks the slot it tried to read into
    as pending (line 226) and the forced flush sends it. With 4 slots of
    4 bytes and the pattern "ab", on "aaab0000aaab" the last flush sends
    slot 3, never written: its 4 indeterminate bytes ([None]) reach the
    sink. *)
Theorem eos_flush_sends_unwritten_slot :
  _buffer_print_flag (RingBuffer_new 4 4 ab_target) = [1; 1; 1; 1] /\
  bgrep_cycles ["ab"%string] 4 4 "aaab0000aaab"
    = [[]; cells "aaab0000"; []; cells "aaab" ++ [None; None; None; None]].
Proof. split; vm_compute; reflexivity. Qed.

(** ** Instances of the claims on concrete states *)

(** C2 on [ring_ex]: reading "aaab" registers a match in slot 3, the
    flush start is slot 1 and the cursor is at slot 0, so nothing is
    sent. *)
Lemma flush_schedule_witness :
  readFrom ring_ex (bytes "aaab") =
  (true, register (store ring_ex (bytes "aaab")) (_next_buffer_idx ring_ex) 4, []).
Proof.
  refine (proj2 (proj2 (flush_schedule ring_ex (bytes "aaab") ring_ex_wf _ _ _)) _).
  - apply Nat.leb_le. vm_compute. reflexivity.
  - apply Nat.ltb_lt. vm_compute. reflexivity.
  - apply Z.leb_le. vm_compute. reflexivity.
  - apply Z.eqb_neq. vm_compute. reflexivity.
Defined.

(** C4 on [ring_match]: the read at end of stream flushes from slot 1. *)
Lemma end_of_stream_flush_witness :
  (readFrom ring_match []).2
    = spec_window (store ring_match []) (flush_start (store ring_match [])).
Proof.
  destruct (end_of_stream_flush ring_match [] ring_match_wf
              ltac:(apply Nat.leb_le; vm_compute; reflexivity)) as [_ H].
  destruct (H ltac:(apply Z.leb_le; vm_compute; reflexivity)) as (_ & H1 & _).
  destruct (H1 ltac:(apply Z.leb_le; vm_compute; reflexivity)) as (_ & H2 & _).
  exact H2.
Defined.

(** C7 on [ring_match]: the read "3333" reaches the flush start and the
    match ends. *)
Lemma single_active_match_witness :
  _matched_buffer_idx (readFrom ring_match (bytes "3333")).1.2 = -1.
Proof.
  destruct (single_active_match ring_match (bytes "3333") ring_match_wf
              ltac:(apply Nat.leb_le; vm_compute; reflexivity)) as [_ H].
  rewrite (H ltac:(apply Z.leb_le; vm_compute; reflexivity)).
  vm_compute. reflexivity.
Defined.

(** C9 after three reads into 4 slots of 4 bytes. *)
Lemma shape_is_fixed_witness :
  shape (drive (RingBuffer_new 4 4 ab_target) [bytes "0000"; bytes "1111"; bytes "2222"]).1
    = shape (RingBuffer_new 4 4 ab_target).
Proof.
  refine (proj1 (shape_is_fixed 4 4 ab_target _ _ _ _)).
  - apply Z.ltb_lt. reflexivity.
  - apply Z.ltb_lt. reflexivity.
  - repeat apply List.Forall_cons; try apply List.Forall_nil; apply Nat.leb_le; vm_compute; reflexivity.
Defined.

(** C10 on a fresh ring whose only pattern is empty: the first read
    registers a match in slot 0. *)
Lemma empty_pattern_matches_all_witness :
  readFrom (RingBuffer_new 4 4 empty_target) (bytes "xy") =
  let rb2 := set_matched (store (RingBuffer_new 4 4 empty_target) (bytes "xy")) 0 in
  ((true, (check_flush rb2).1), (check_flush rb2).2).
Proof.
  refine (proj2 (empty_pattern_matches_all empty_target [] 0)
            (RingBuffer_new 4 4 empty_target) (bytes "xy") _ _ _).
  - left. reflexivity.
  - apply Z.ltb_lt. reflexivity.
  - apply Nat.ltb_lt. vm_compute. reflexivity.
Defined.

(** C8 on the pattern "ab": the first pattern decides. *)
Lemma target_match_spec_witness :
  Target_match ab_target (map Some (bytes "xaby")) 4 =
    if bool_decide (is_Some (memmem (take (Z.to_nat 4) (map Some (bytes "xaby"))) (bytes "ab")))
    then true else Target_match (mkTarget []) (map Some (bytes "xaby")) 4.
Proof.
  refine (proj1 (proj2 (target_match_spec ab_target (bytes "xaby") 4)) (bytes "ab") [] _).
  reflexivity.
Defined.

(** C3 on [ring_ex]: the match read "aaab" into slot 3 and one more read
    "3333" flush "1111", "2222", "aaab", "3333", the match at position 2. *)
Lemma centered_window_witness :
  let out := (drive ring_ex [bytes "aaab"; bytes "3333"]).2 in
  length out = Z.to_nat (_buffer_num ring_ex) /\
  length (concat out) = (Z.to_nat (_buffer_num ring_ex) * Z.to_nat (_buffer_size ring_ex))%nat /\
  out !! Z.to_nat ((_buffer_num ring_ex - _buffer_num ring_ex / 2) mod _buffer_num ring_ex)
    = Some (map Some (bytes "aaab")
            ++ drop (length (bytes "aaab")) (get_slot ring_ex (_next_buffer_idx ring_ex))).
Proof.
  apply (centered_window ring_ex (bytes "aaab") [bytes "3333"] ring_ex_wf).
  - vm_compute. reflexivity.
  - apply Nat.ltb_lt. vm_compute. reflexivity.
  - apply Nat.leb_le. vm_compute. reflexivity.
  - vm_compute. reflexivity.
  - vm_compute. reflexivity.
  - apply List.Forall_cons; [|apply List.Forall_nil]. split.
    + apply Nat.ltb_lt. vm_compute. reflexivity.
    + apply Nat.leb_le. vm_compute. reflexivity.
  - intros d Hd.
    assert (Hn : _buffer_num ring_ex = 4) by (vm_compute; reflexivity).
    rewrite Hn in Hd |- *. simpl in Hd.
    assert (d = 2 \/ d = 3) as [-> | ->] by lia; vm_compute; reflexivity.
Defined.

(** ** Further properties of the code *)

(** [StreamReader::read] with [buffer_size = n > 0] on an
    [istringstream] of [L] bytes returns [n] for [L / n] calls; then, if
    [n] divides [L], one call returns [0]; otherwise one call returns the
    [L mod n] remaining bytes and the next returns [-1]. *)
Theorem stream_reader_read_counts (s : list byte) n fuel :
  (0 < n)%nat -> (length s / n + 2 <= fuel)%nat ->
  reader_reads fuel n (istringstream s) =
  replicate (length s / n) (Z.of_nat n) ++
  (if (length s mod n =? 0)%nat then [0] else [Z.of_nat (length s mod n); -1]).
Proof.
  intros Hn Hf. unfold istringstream.
  rewrite reader_reads_from by (rewrite ?Nat.sub_0_r; lia). rewrite Nat.sub_0_r. done.
Qed.

(** The [readFrom] loop over a [StreamReader] on an [istringstream]
    gives each cycle the next [buffer_size] bytes of the string (fewer in
    the last one) and stops on its own within [length + 1] cycles: with
    any larger bound it is the loop [run_stream] over the string. *)
Theorem stream_loop_is_run_stream rb s fuel :
  0 < _buffer_size rb -> (length s < fuel)%nat ->
  stream_loop fuel rb (istringstream s) = run_stream (S (length s)) rb s.
Proof.
  intros Hs Hf. unfold istringstream. rewrite stream_loop_run by done.
  rewrite drop_0. apply run_stream_fuel; lia.
Qed.


(** [test()] passes its first four checks and returns -1 at the fifth:
    on "0000111122223333bbbb4444ccccaaab" the sink receives
    "4444ccccaaabbbbb", not "aaab0000", which is also what it prints. *)
Theorem self_test_result :
  test_block "000011112222aaab3333bbbb4444cccc5555aaab666677778888"
             "11112222aaab3333cccc5555aaab6666" = true /\
  test_block "000011112222aaab3333bbbbaaab666677778888"
             "11112222aaab3333bbbbaaab6666" = true /\
  test_block "000011112222aaab3333bbbb4444cccc" "11112222aaab3333" = true /\
  test_block "aaab0000111122223333bbbb4444cccc" "aaab0000" = true /\
  test = (-1, cells ("4444ccccaaabbbbb" ++ newline)%string).
Proof. vm_compute. repeat split. Qed.

(** [Target::addTarget] then [Target::match]: the target with one more
    pattern matches exactly when the old one did or the new pattern
    occurs in [str[0, len)]; the order patterns were added in does not
    change the result. *)
Theorem addTarget_compose t p str len :
  Target_match (addTarget t p) str len =
    Target_match t str len || bool_decide (is_Some (memmem (take (Z.to_nat len) str) p)) /\
  (forall t', _targets t ≡ₚ _targets t' -> Target_match t str len = Target_match t' str len).
Proof.
  split.
  - unfold Target_match, addTarget. cbn [_targets]. rewrite match_loop_app. f_equal.
    cbn [match_loop]. destruct (memmem _ p); done.
  - intros t' Hperm. unfold Target_match. apply match_loop_bool_eq.
    rewrite !match_loop_exists. split; intros (q & Hq & Hs); exists q; split; try done.
    + rewrite <-Hperm. done.
    + rewrite Hperm. done.
Qed.

(** Edges of [Target::match]: on a zero-length probe it holds exactly
    when the empty pattern is registered, and a pattern longer than the
    probe never contributes a match. *)
Theorem target_match_edges t str len :
  Target_match t str 0 = bool_decide ([] ∈ _targets t) /\
  (forall p, (Z.to_nat len < length p)%nat ->
     Target_match (addTarget t p) str len = Target_match t str len).
Proof.
  split.
  - unfold Target_match. replace (take (Z.to_nat 0) str) with (@nil cell) by done.
    destruct (match_loop (_targets t) []) eqn:E; symmetry.
    + apply bool_decide_eq_true_2. apply match_loop_exists in E as (q & Hq & Hs).
      apply memmem_empty_hay in Hs. subst q. done.
    + apply bool_decide_eq_false_2. intros Hin.
      assert (match_loop (_targets t) [] = true) as Ht by
        (apply match_loop_exists; exists []; split; [done|]; eexists; done).
      congruence.
  - intros p Hp. unfold Target_match, addTarget. cbn [_targets].
    rewrite match_loop_app. cbn [match_loop].
    rewrite memmem_long by (rewrite length_take; lia). apply orb_false_r.
Qed.

(** Lines 246-250 look only at the bytes the read just returned: while
    no match is tracked, the cycle's match is registered exactly when a
    pattern occurs in the data read, whatever the slot held before and
    whatever the other slots hold; a pattern split between two reads is
    never found ("000a" then "b000" with the pattern "ab" sends nothing). *)
Theorem match_only_within_a_read :
  (forall rb data, wf rb -> _matched_buffer_idx rb < 0 ->
     _matched_buffer_idx (register (store rb data) (_next_buffer_idx rb) (Z.of_nat (length data)))
     = if Target_match (_target rb) (map Some data) (Z.of_nat (length data))
       then _next_buffer_idx rb else _matched_buffer_idx rb) /\
  bgrep_output ["ab"%string] 4 4 "000ab000" = [].
Proof.
  split; [|vm_compute; reflexivity].
  intros rb data Hwf Hm. unfold register.
  rewrite target_match_new_bytes by done.
  destruct (store_fields rb data) as (_ & _ & Hm1 & Ht1). rewrite Hm1, Ht1.
  rewrite (proj2 (Z.ltb_lt _ _) Hm). cbn [andb].
  destruct (Target_match _ _ _); done.
Qed.

(** A ring that tracks no match and reads chunks none of which contains
    a pattern sends nothing and still tracks no match. *)
Theorem no_match_no_output rb reads :
  wf rb -> _matched_buffer_idx rb < 0 ->
  Forall (fun d => read_ok rb d /\
     Target_match (_target rb) (map Some d) (Z.of_nat (length d)) = false) reads ->
  (drive rb reads).2 = [] /\ _matched_buffer_idx (drive rb reads).1 < 0.
Proof.
  revert rb. induction reads as [|d reads IH]; intros rb Hwf Hm Hok; [done|].
  apply Forall_cons in Hok as [[Hd Ht] Hok].
  cbn [drive]. rewrite cycle_no_match by done.
  destruct (store_fields rb d) as (_ & Hs1 & Hm1 & Ht1).
  destruct (negb _).
  - assert (Hok1 : Forall (fun e => read_ok (store rb d) e /\
        Target_match (_target (store rb d)) (map Some e) (Z.of_nat (length e)) = false) reads).
    { eapply Forall_impl; [exact Hok|]. intros x [Hx1 Hx2].
      unfold read_ok in *. rewrite Hs1, Ht1. done. }
    assert (Hm' : _matched_buffer_idx (store rb d) < 0) by (rewrite Hm1; done).
    destruct (IH (store rb d) (store_wf _ _ Hwf Hd) Hm' Hok1) as [H1 H2].
    destruct (drive (store rb d) reads) as [rb2 out']. simpl in *. subst out'. done.
  - simpl. rewrite ?Hm1. done.
Qed.

(** [collectTo] sends every pending slot once, as many chunks as there
    are pending slots, and leaves none pending: a second [collectTo],
    from any start, sends nothing. *)
Theorem collectTo_drains rb start start' :
  wf rb -> 0 <= start < _buffer_num rb -> 0 <= start' < _buffer_num rb ->
  length (collectTo start rb).2 = pending rb /\
  pending (collectTo start rb).1 = 0%nat /\
  (collectTo start' (collectTo start rb).1).2 = [].
Proof.
  intros Hwf Hs Hs'.
  destruct (collectTo_count _ _ Hwf Hs) as [H1 H2]. split; [done|split; [done|]].
  apply collectTo_again.
  - apply collectTo_wf; done.
  - apply collectTo_cleared; done.
  - destruct (collectTo_fields start rb) as (_ & -> & _). done.
Qed.

(** On a freshly constructed ring, the driver loop sends at most one
    chunk per [readFrom] call, each chunk of exactly [buffer_size] bytes,
    also when the slot was filled by a short read. *)
Theorem output_chunks_bounded num size target reads :
  0 < num -> 0 < size ->
  Forall (fun d => (length d <= Z.to_nat size)%nat) reads ->
  (length (drive (RingBuffer_new num size target) reads).2 <= length reads)%nat /\
  Forall (fun c => length c = Z.to_nat size) (drive (RingBuffer_new num size target) reads).2.
Proof.
  intros Hn Hs Hr.
  destruct (drive_accounting (RingBuffer_new num size target) reads
              (new_wf _ _ _ Hn Hs) Hr) as [H1 H2].
  assert (H0 : pending (RingBuffer_new num size target) = 0%nat).
  { unfold pending. apply pending_none. intros i. simpl.
    rewrite lookup_replicate. intros [[=] _]. }
  split; [lia|done].
Qed.

(** The test driver's output on an input of [L] bytes is a whole number
    of slots, and at most [ceil(L / buffer_size) + 1] of them. *)
Theorem bgrep_output_size patterns num size input :
  0 < num -> 0 < size ->
  let L := length (list_byte_of_string input) in
  let out := bgrep_output patterns num size input in
  (length out mod Z.to_nat size = 0)%nat /\
  (length out <= Z.to_nat size * ((L + Z.to_nat size - 1) / Z.to_nat size + 1))%nat.
Proof.
  intros Hn Hs L out. subst out L. unfold bgrep_output, bgrep_cycles.
  set (target := fold_left addTarget _ Target_new).
  set (bytes := list_byte_of_string input).
  pose proof (new_wf num size target Hn Hs) as Hwf.
  destruct (run_stream_accounting (S (length bytes)) _ bytes Hwf) as [H1 H2].
  assert (H0 : pending (RingBuffer_new num size target) = 0%nat).
  { unfold pending. apply pending_none. intros i. simpl.
    rewrite lookup_replicate. intros [[=] _]. }
  cbn [_buffer_size RingBuffer_new] in H1, H2.
  set (outs := (run_stream (S (length bytes)) (RingBuffer_new num size target) bytes).2) in *.
  assert (Hc : concat (map (fun out => concat out) outs) = concat (concat outs)).
  { clear. induction outs as [|o outs IH]; [done|]. simpl. rewrite concat_app, IH. done. }
  rewrite Hc, (length_concat_uniform _ _ H2). split.
  - apply Nat.Div0.mod_mul.
  - rewrite Nat.mul_comm. apply Nat.mul_le_mono_l. lia.
Qed.

(** Every [readFrom] call advances the write cursor by one slot modulo
    [buffer_num]: after [k] reads that return data the cursor has moved
    [k] slots round the ring. *)
Theorem round_robin_cursor rb reads :
  wf rb -> Forall (fun d => (0 < length d)%nat /\ read_ok rb d) reads ->
  _next_buffer_idx (drive rb reads).1
  = (_next_buffer_idx rb + Z.of_nat (length reads)) mod _buffer_num rb.
Proof.
  revert rb. induction reads as [|d reads IH]; intros rb Hwf Hok.
  - simpl. rewrite Z.add_0_r, Z.mod_small; [done|apply (wf_next _ Hwf)].
  - apply Forall_cons in Hok as [[Hd0 Hd] Hok].
    pose proof (readFrom_next rb d Hwf) as Hnx.
    pose proof (readFrom_wf rb d Hwf Hd) as Hwf1.
    pose proof (readFrom_dims rb d) as (Hn1 & Hs1 & _).
    pose proof (wf_num _ Hwf).
    assert (Hb : (readFrom rb d).1.1 = true) by (rewrite readFrom_regular by done; done).
    cbn [drive]. destruct (readFrom rb d) as [[b rb1] out]. cbn [fst snd] in *. subst b.
    assert (Hok1 : Forall (fun e => (0 < length e)%nat /\ read_ok rb1 e) reads).
    { eapply Forall_impl; [exact Hok|]. intros x [Hx1 Hx2]. unfold read_ok in *.
      rewrite Hs1. done. }
    specialize (IH rb1 Hwf1 Hok1).
    destruct (drive rb1 reads) as [rb2 out']. cbn [fst] in *.
    rewrite IH, Hnx, Hn1, Z.add_mod_idemp_l by lia. cbn [length]. f_equal. lia.
Qed.

(** [FileReader::tell] is the sum of the values [read] returned, modulo
    [2^64]: a failed read ([-1]) moves it back by one, and on a fresh
    reader wraps it to [2^64 - 1]. *)
Theorem file_reader_position fr nreads :
  0 <= _pos fr < 2 ^ 64 ->
  FileReader_tell (FileReader_reads fr nreads)
  = (FileReader_tell fr + fold_right Z.add 0 nreads) mod 2 ^ 64.
Proof.
  unfold FileReader_tell, FileReader_reads.
  revert fr. induction nreads as [|n ns IH]; intros fr Hp.
  - simpl. rewrite Z.add_0_r, Z.mod_small; done.
  - cbn [fold_left fold_right]. rewrite IH.
    + simpl. rewrite Z.add_mod_idemp_l by lia. f_equal. lia.
    + simpl. apply Z.mod_pos_bound. lia.
Qed.

(** ** Instances of the further properties *)

Lemma stream_reader_read_counts_witness :
  reader_reads 4 4 (istringstream (bytes "0123456789")) = [4; 4; 2; -1].
Proof.
  refine (stream_reader_read_counts (bytes "0123456789") 4 4 _ _).
  - apply Nat.ltb_lt. reflexivity.
  - apply Nat.leb_le. vm_compute. reflexivity.
Defined.

Lemma stream_loop_is_run_stream_witness :
  stream_loop 20 ring_ex (istringstream (bytes "aaab3333"))
  = run_stream 9 ring_ex (bytes "aaab3333").
Proof.
  refine (stream_loop_is_run_stream ring_ex (bytes "aaab3333") 20 _ _).
  - apply Z.ltb_lt. vm_compute. reflexivity.
  - apply Nat.ltb_lt. vm_compute. reflexivity.
Defined.


Lemma addTarget_compose_witness :
  Target_match (mkTarget [bytes "ab"; bytes "cd"]) (cells "xcdx") 4
  = Target_match (mkTarget [bytes "cd"; bytes "ab"]) (cells "xcdx") 4.
Proof.
  refine (proj2 (addTarget_compose (mkTarget [bytes "ab"; bytes "cd"]) [] (cells "xcdx") 4)
            (mkTarget [bytes "cd"; bytes "ab"]) _).
  apply Permutation_swap.
Defined.

Lemma target_match_edges_witness :
  Target_match (addTarget ab_target (bytes "abcde")) (cells "abcd") 4
  = Target_match ab_target (cells "abcd") 4.
Proof.
  refine (proj2 (target_match_edges ab_target (cells "abcd") 4) (bytes "abcde") _).
  apply Nat.ltb_lt. vm_compute. reflexivity.
Defined.

Lemma match_only_within_a_read_witness :
  _matched_buffer_idx (register (store ring_ex (bytes "b000")) (_next_buffer_idx ring_ex)
                         (Z.of_nat (length (bytes "b000"))))
  = if Target_match (_target ring_ex) (map Some (bytes "b000")) (Z.of_nat (length (bytes "b000")))
    then _next_buffer_idx ring_ex else _matched_buffer_idx ring_ex.
Proof.
  refine (proj1 match_only_within_a_read ring_ex (bytes "b000") ring_ex_wf _).
  apply Z.ltb_lt. vm_compute. reflexivity.
Defined.

Lemma no_match_no_output_witness :
  (drive ring_ex [bytes "3333"; bytes "bbbb"]).2 = [] /\
  _matched_buffer_idx (drive ring_ex [bytes "3333"; bytes "bbbb"]).1 < 0.
Proof.
  apply (no_match_no_output ring_ex [bytes "3333"; bytes "bbbb"] ring_ex_wf).
  - apply Z.ltb_lt. vm_compute. reflexivity.
  - repeat apply List.Forall_cons; try apply List.Forall_nil;
      (split; [apply Nat.leb_le | ]; vm_compute; reflexivity).
Defined.

Lemma collectTo_drains_witness :
  length (collectTo 1 ring_ex).2 = pending ring_ex /\
  pending (collectTo 1 ring_ex).1 = 0%nat /\
  (collectTo 3 (collectTo 1 ring_ex).1).2 = [].
Proof.
  apply (collectTo_drains ring_ex 1 3 ring_ex_wf).
  - split; [lia | apply Z.ltb_lt; vm_compute; reflexivity].
  - split; [lia | apply Z.ltb_lt; vm_compute; reflexivity].
Defined.

Lemma output_chunks_bounded_witness :
  (length (drive (RingBuffer_new 4 4 ab_target) [bytes "aaab"; bytes "00"; []]).2 <= 3)%nat /\
  Forall (fun c => length c = Z.to_nat 4)
    (drive (RingBuffer_new 4 4 ab_target) [bytes "aaab"; bytes "00"; []]).2.
Proof.
  apply (output_chunks_bounded 4 4 ab_target [bytes "aaab"; bytes "00"; []]).
  - apply Z.ltb_lt. reflexivity.
  - apply Z.ltb_lt. reflexivity.
  - repeat apply List.Forall_cons; try apply List.Forall_nil;
      apply Nat.leb_le; vm_compute; reflexivity.
Defined.

Lemma bgrep_output_size_witness :
  (length (bgrep_output ["ab"%string] 4 4 "aaab00") mod 4 = 0)%nat /\
  (length (bgrep_output ["ab"%string] 4 4 "aaab00") <= 4 * ((6 + 4 - 1) / 4 + 1))%nat.
Proof.
  refine (bgrep_output_size ["ab"%string] 4 4 "aaab00" _ _).
  - apply Z.ltb_lt. reflexivity.
  - apply Z.ltb_lt. reflexivity.
Defined.

Lemma round_robin_cursor_witness :
  _next_buffer_idx (drive ring_ex [bytes "3333"; bytes "4444"]).1
  = (_next_buffer_idx ring_ex + 2) mod _buffer_num ring_ex.
Proof.
  apply (round_robin_cursor ring_ex [bytes "3333"; bytes "4444"] ring_ex_wf).
  repeat apply List.Forall_cons; try apply List.Forall_nil;
    (split; [apply Nat.ltb_lt | apply Nat.leb_le]; vm_compute; reflexivity).
Defined.

Lemma file_reader_position_witness :
  FileReader_tell (FileReader_reads FileReader_new [-1]) = 2 ^ 64 - 1.
Proof.
  rewrite (file_reader_position FileReader_new [-1]).
  - vm_compute. reflexivity.
  - split; apply Z.leb_le || apply Z.ltb_lt; vm_compute; reflexivity.
Defined.
